(** * fib_miles2km: the conversion engine of [src/algorithms.c]

    A shallow embedding of the four converters [basic_miles2km],
    [fib_interpolate], [fib_cache_convert] and [fib_golden_ratio] and of
    [fibonacci], followed by the properties the specification states
    about them.

    - [uint64_t] is [Z] with the wrap-around modulo 2^64 written out;
    - [float] and [double] are IEEE 754 binary32 and binary64, through the
      parameterised operations of [SpecFloat] (round to nearest, ties to
      even);
    - behaviour the C standard leaves undefined (a float-to-int
      conversion out of range, an array access out of bounds, signed
      overflow) is an explicit [Undefined] outcome;
    - the static cache of [fib_cache_convert] is explicit state that every
      call takes and returns. *)

From Stdlib Require Import ZArith Bool Lia.
From Stdlib Require Import Floats.SpecFloat.
From stdpp Require Import base list.

Local Open Scope Z_scope.

(** ** Unsigned 64-bit integers *)

Definition UINT64_MOD : Z := 2 ^ 64.

(** The value a [uint64_t] holds after an arithmetic result [z]. *)
Definition wrap64 (z : Z) : Z := z mod UINT64_MOD.

Definition INT_MIN : Z := - 2 ^ 31.
Definition INT_MAX : Z := 2 ^ 31 - 1.

(** ** Outcomes: a value, or undefined behaviour *)

Inductive ub_kind : Set :=
| OutOfBounds      (* array index outside the array *)
| CastOutOfRange   (* floating value whose integral part no int holds *)
| SignedOverflow.  (* int arithmetic whose result no int holds *)

Inductive outcome (A : Type) : Type :=
| Done (a : A)
| Undefined (u : ub_kind).

Arguments Done {A} a.
Arguments Undefined {A} u.

#[global] Instance outcome_ret : MRet outcome := @Done.

#[global] Instance outcome_bind : MBind outcome := fun A B k m =>
  match m with
  | Done a => k a
  | Undefined u => Undefined u
  end.

(** ** [fibonacci]

    [for (int i = 2; i <= num; i++) { next = a + b; a = b; b = next; }]
    runs [num - 1] times; [fib_loop n a b] is the value of [b] after [n]
    more iterations. *)

Fixpoint fib_loop (n : nat) (a b : Z) : Z :=
  match n with
  | O => b
  | S n' => fib_loop n' b (wrap64 (a + b))
  end.

Definition fibonacci (num : Z) : Z :=
  if num <? 0 then 0
  else if num =? 0 then 0
  else if num =? 1 then 1
  else fib_loop (Z.to_nat (num - 1)) 0 1.

(** The same loop over unbounded integers: what the recurrence gives when
    nothing wraps. *)

Fixpoint fib_loop_exact (n : nat) (a b : Z) : Z :=
  match n with
  | O => b
  | S n' => fib_loop_exact n' b (a + b)
  end.

Definition fibonacci_exact (num : Z) : Z :=
  if num <? 0 then 0
  else if num =? 0 then 0
  else if num =? 1 then 1
  else fib_loop_exact (Z.to_nat (num - 1)) 0 1.

(** ** Floating point: binary32 ([float]) and binary64 ([double]) *)

Module F32.
Definition prec : Z := 24.
Definition emax : Z := 128.
Definition add := SFadd prec emax.
Definition sub := SFsub prec emax.
Definition mul := SFmul prec emax.
Definition div := SFdiv prec emax.
Definition ltb := SFltb.
Definition leb := SFleb.
Definition valid := valid_binary prec emax.
(** Conversion of an integer to [float]. *)
Definition of_Z (z : Z) : spec_float := binary_normalize prec emax z 0 false.
(** Conversion of a finite value of another format to [float]. *)
Definition round (x : spec_float) : spec_float :=
  match x with
  | S754_finite s m e => binary_round prec emax s m e
  | _ => x
  end.
End F32.

Module F64.
Definition prec : Z := 53.
Definition emax : Z := 1024.
Definition add := SFadd prec emax.
Definition sub := SFsub prec emax.
Definition mul := SFmul prec emax.
Definition div := SFdiv prec emax.
Definition sqrt := SFsqrt prec emax.
Definition ltb := SFltb.
Definition leb := SFleb.
Definition valid := valid_binary prec emax.
Definition of_Z (z : Z) : spec_float := binary_normalize prec emax z 0 false.
Definition round (x : spec_float) : spec_float :=
  match x with
  | S754_finite s m e => binary_round prec emax s m e
  | _ => x
  end.
End F64.

(** The integral part of a floating value, rounded toward zero; [None] for
    infinities and NaN. *)
Definition trunc (x : spec_float) : option Z :=
  match x with
  | S754_zero _ => Some 0
  | S754_finite s m e =>
      let a := if 0 <=? e then Z.pos m * 2 ^ e else Z.pos m / 2 ^ (- e) in
      Some (if s then - a else a)
  | _ => None
  end.

(** Conversion to [int] (C11 6.3.1.4): the fraction is discarded, and the
    behaviour is undefined when the integral part is no [int]. *)
Definition to_int (x : spec_float) : outcome Z :=
  match trunc x with
  | Some z => if (INT_MIN <=? z) && (z <=? INT_MAX) then Done z
              else Undefined CastOutOfRange
  | None => Undefined CastOutOfRange
  end.

(** The result of an [int] operation whose mathematical value is [z]. *)
Definition int_arith (z : Z) : outcome Z :=
  if (INT_MIN <=? z) && (z <=? INT_MAX) then Done z
  else Undefined SignedOverflow.

(** Literals. [1.609344f] is the binary32 value nearest to
    1609344/1000000; both integers are exact in binary32 and the division
    is correctly rounded. *)
Definition f_1_609344 : spec_float := F32.div (F32.of_Z 1609344) (F32.of_Z 1000000).
Definition f_5 : spec_float := F32.of_Z 5.
Definition f_0 : spec_float := S754_zero false.

(** ** [basic_miles2km]

    The parameter is an [int]: [miles * 1.609344f] converts it to [float]
    and multiplies in binary32. *)
Definition basic_miles2km (miles : Z) : spec_float :=
  F32.mul (F32.of_Z miles) f_1_609344.

(** A call [basic_miles2km(x)] with a floating argument [x], as in [main]
    and in the three approximating converters: the argument is converted
    to [int] first. *)
Definition basic_miles2km_call (x : spec_float) : outcome spec_float :=
  z ← to_int x; mret (basic_miles2km z).

(** ** The interpolation formula

    [y0 + (miles - x0) * ((float)(y1 - y0) / (x1 - x0))] with [uint64_t]
    operands [y0 x0 y1 x1]: the two differences are taken in [uint64_t],
    every integer operand is converted to [float], and the quotient, the
    product and the sum are binary32 operations. [fib_interpolate] uses it
    with [(prev_km, prev_mile, curr_km, curr_mile)], [fib_cache_convert]
    with [(Fn1, Fn, Fn2, Fn1)]. *)
Definition interpolation (miles : spec_float) (y0 x0 y1 x1 : Z) : spec_float :=
  F32.add (F32.of_Z y0)
    (F32.mul (F32.sub miles (F32.of_Z x0))
       (F32.div (F32.of_Z (wrap64 (y1 - y0))) (F32.of_Z (wrap64 (x1 - x0))))).

(** ** [fib_interpolate] *)

Record walk : Set := Walk {
  prev_mile : Z;
  prev_km : Z;
  curr_mile : Z;
  curr_km : Z
}.

(** [prev_mile = 0, prev_km = 1, curr_mile = 1, curr_km = 2]. *)
Definition walk_start : walk := Walk 0 1 1 2.

(** One pass through the body of [while (curr_mile <= miles)]; the flag
    says whether the overflow check took the [break]. *)
Definition walk_step (w : walk) : walk * bool :=
  let prev_mile' := curr_mile w in
  let prev_km' := curr_km w in
  let curr_mile' := prev_km' in
  let curr_km' := wrap64 (prev_mile' + prev_km') in
  (Walk prev_mile' prev_km' curr_mile' curr_km',
   (curr_km' <? prev_km') || (curr_mile' <? prev_mile')).

(** The loop, with [fuel] bounding the number of passes; [None] when the
    fuel runs out before the loop is left. *)
Fixpoint interpolate_walk (fuel : nat) (miles : spec_float) (w : walk) : option walk :=
  match fuel with
  | O => None
  | S fuel' =>
      if F32.leb (F32.of_Z (curr_mile w)) miles then
        let '(w', stop) := walk_step w in
        if stop then Some w' else interpolate_walk fuel' miles w'
      else Some w
  end.

Definition fib_interpolate_fuel (fuel : nat) (miles : spec_float)
  : option (outcome spec_float) :=
  if F32.ltb miles f_5 then Some (basic_miles2km_call miles)
  else
    match interpolate_walk fuel miles walk_start with
    | Some w =>
        Some (Done (interpolation miles
                      (prev_km w) (prev_mile w) (curr_km w) (curr_mile w)))
    | None => None
    end.

(** The walk leaves the loop within 93 passes whatever [miles] is
    ([fib_interpolate_total] below), so this is the function. *)
Definition WALK_FUEL : nat := 93.

Definition fib_interpolate (miles : spec_float) : option (outcome spec_float) :=
  fib_interpolate_fuel WALK_FUEL miles.

(** ** [fib_cache_convert] *)

Definition MAX_CACHE : Z := 94.

(** The two static locals. *)
Record cache_state : Type := CacheState {
  cache : list Z;
  initialized : bool
}.

(** [static uint64_t cache[MAX_CACHE] = {0}; static int initialized = 0;] *)
Definition cache_state_start : cache_state :=
  CacheState (replicate (Z.to_nat MAX_CACHE) 0) false.

(** [c[i]] as an rvalue and [c[i] = v], undefined outside the array. *)
Definition array_get (c : list Z) (i : Z) : outcome Z :=
  if 0 <=? i then
    match c !! Z.to_nat i with
    | Some v => Done v
    | None => Undefined OutOfBounds
    end
  else Undefined OutOfBounds.

Definition array_set (c : list Z) (i : Z) (v : Z) : outcome (list Z) :=
  if (0 <=? i) && (i <? Z.of_nat (length c)) then Done (<[Z.to_nat i := v]> c)
  else Undefined OutOfBounds.

(** [for (int i = 2; i < MAX_CACHE; i++) cache[i] = cache[i-1] + cache[i-2];]
    with [n] passes left and the counter at [i]. *)
Fixpoint cache_fill (n : nat) (i : Z) (c : list Z) : outcome (list Z) :=
  match n with
  | O => Done c
  | S n' =>
      a ← array_get c (i - 1);
      b ← array_get c (i - 2);
      c' ← array_set c i (wrap64 (a + b));
      cache_fill n' (i + 1) c'
  end.

Definition cache_init (c : list Z) : outcome (list Z) :=
  c0 ← array_set c 0 0;
  c1 ← array_set c0 1 1;
  cache_fill (Z.to_nat (MAX_CACHE - 2)) 2 c1.

(** [while (i < MAX_CACHE-2 && cache[i] <= miles) i++;] with [n] the
    number of values the counter can still take below [MAX_CACHE-2]. *)
Fixpoint cache_search (n : nat) (c : list Z) (miles : spec_float) (i : Z) : outcome Z :=
  match n with
  | O => Done i
  | S n' =>
      if i <? MAX_CACHE - 2 then
        v ← array_get c i;
        if F32.leb (F32.of_Z v) miles then cache_search n' c miles (i + 1)
        else Done i
      else Done i
  end.

(** The function body after the initialisation block. *)
Definition cache_convert (c : list Z) (miles : spec_float) : outcome spec_float :=
  if F32.ltb miles f_5 then basic_miles2km_call miles
  else
    i ← cache_search (Z.to_nat (MAX_CACHE - 2 - 2)) c miles 2;
    if MAX_CACHE - 2 <=? i then basic_miles2km_call miles
    else
      Fn ← array_get c (i - 1);
      Fn1 ← array_get c i;
      Fn2 ← array_get c (i + 1);
      mret (interpolation miles Fn1 Fn Fn2 Fn1).

(** A call: the state before, the argument, the state after and the
    result. *)
Definition fib_cache_convert (st : cache_state) (miles : spec_float)
  : cache_state * outcome spec_float :=
  let init :=
    if initialized st then Done st
    else c ← cache_init (cache st); mret (CacheState c true) in
  match init with
  | Done st' => (st', cache_convert (cache st') miles)
  | Undefined u => (st, Undefined u)
  end.

(** ** [fib_golden_ratio]

    [sqrt] and [floor] are exact by IEEE 754 and by the C standard.
    [log] and [pow] come from the C mathematical library, which is not
    part of the repository: they are parameters of the embedding. *)

(** [floor] on [double]. *)
Definition floor (x : spec_float) : spec_float :=
  match x with
  | S754_finite s m e =>
      if 0 <=? e then x
      else
        let q := Z.pos m / 2 ^ (- e) in
        let r := Z.pos m mod 2 ^ (- e) in
        if s then F64.of_Z (if r =? 0 then - q else - q - 1)
        else F64.of_Z q
  | _ => x
  end.

Definition d_sqrt5 : spec_float := F64.sqrt (F64.of_Z 5).
Definition d_1e_5 : spec_float := F64.div (F64.of_Z 1) (F64.of_Z 100000).
(** [DBL_EPSILON] is 2^-52. *)
Definition DBL_EPSILON : spec_float := S754_finite false (2 ^ 52) (-104).

Section GoldenRatio.

Variable log : spec_float -> spec_float.
Variable pow : spec_float -> spec_float -> spec_float.

(** [(pow(phi, i) - pow(-phi, j)) / sqrt(5.0)] for [int] exponents. *)
Definition binet (phi : spec_float) (i j : Z) : spec_float :=
  F64.div (F64.sub (pow phi (F64.of_Z i)) (pow (SFopp phi) (F64.of_Z j)))
    d_sqrt5.

Definition fib_golden_ratio (miles : spec_float) : outcome spec_float :=
  let phi := F64.div (F64.add (F64.of_Z 1) d_sqrt5) (F64.of_Z 2) in
  let milesd := F64.round miles in
  if F64.ltb milesd d_1e_5 then Done f_0
  else
    let n := F64.div (log (F64.mul milesd d_sqrt5)) (log phi) in
    k ← to_int (floor n);
    (* Fk: exponents k and -k *)
    nk ← int_arith (- k);
    let Fk := binet phi k nk in
    (* Fk1: exponents k+1 and -k-1 *)
    k1 ← int_arith (k + 1);
    nk1 ← int_arith (nk - 1);
    let Fk1 := binet phi k1 nk1 in
    (* Fk2: exponents k+2 and -k-2 *)
    k2 ← int_arith (k + 2);
    nk2 ← int_arith (nk - 2);
    let Fk2 := binet phi k2 nk2 in
    if F64.ltb (F64.sub Fk1 Fk) DBL_EPSILON then basic_miles2km_call miles
    else
      mret (F32.round
              (F64.add Fk1
                 (F64.mul (F64.sub milesd Fk)
                    (F64.div (F64.round (F32.round (F64.sub Fk2 Fk1)))
                       (F64.sub Fk1 Fk))))).

End GoldenRatio.

(** ** The [--fib] branch of [main]

    [strtol] has produced [miles] and left [endptr]; [end_of_string] says
    whether [*endptr == 0]. What the branch reports: one of its three
    error messages (exit status [EXIT_FAILURE]), or the line
    ["<miles> miles = <km> km (using Fibonacci)"] (exit status
    [EXIT_SUCCESS]). *)

Inductive fib_report : Set :=
| InvalidDistance
| DistanceTooLarge
| CalculationFailed
| Converted (miles km : Z).

Definition main_fib (end_of_string : bool) (miles : Z) : fib_report :=
  if negb end_of_string || (miles <=? 0) then InvalidDistance
  else if 93 <? miles then DistanceTooLarge
  else
    let fib_result := fibonacci (miles + 1) in
    if (fib_result =? 0) && negb (miles =? 0) then CalculationFailed
    else Converted miles fib_result.

(** ** The [--basic] branch of [main]

    [strtod] has produced the [double] [miles]; the value is refused when
    the string has not been read to its end or [miles < 0]. Otherwise
    [basic_miles2km(miles)] is called, which converts the [double] to the
    [int] parameter, and the line ["<miles> miles = <km> km"] is printed.
    The loop over the positional arguments does the same for each of
    them. *)
Inductive basic_report : Set :=
| InvalidValue
| BasicConverted (miles km : spec_float).

Definition main_basic (end_of_string : bool) (miles : spec_float) : outcome basic_report :=
  if negb end_of_string || F64.ltb miles (F64.of_Z 0) then Done InvalidValue
  else km ← basic_miles2km_call miles; mret (BasicConverted miles km).

(** ** A reference model of the two library functions

    Used where [fib_golden_ratio] has to be evaluated on a concrete input.
    [Libm.log] evaluates the logarithm in fixed point with 200 fractional
    bits and rounds the result to binary64; [Libm.pow] covers the
    integral exponents, the only ones [fib_golden_ratio] passes (the
    exponent is always a converted [int]), computes the power exactly and
    rounds it to binary64. *)
Module Libm.

Definition FRAC : Z := 200.
Definition ONE : Z := 2 ^ FRAC.

(** [t + t^3/3 + t^5/5 + ...], [n] terms from the one of degree [d] on;
    [pw] is [t^d] and [t2] is [t^2], all scaled by [ONE]. *)
Fixpoint atanh_terms (n : nat) (t2 pw d acc : Z) : Z :=
  match n with
  | O => acc
  | S n' => atanh_terms n' t2 (pw * t2 / ONE) (d + 2) (acc + pw / d)
  end.

Definition atanh (t : Z) : Z := atanh_terms 80 (t * t / ONE) t 1 0.

(** ln 2 = 2 atanh (1/3). *)
Definition LN2 : Z := 2 * atanh (ONE / 3).

(** ln (m * 2^e), scaled by [ONE]: with [m = y * 2^(d-1)] and
    [1 <= y < 2], it is [(e + d - 1) ln 2 + 2 atanh ((y-1)/(y+1))]. *)
Definition ln_fixed (m : positive) (e : Z) : Z :=
  let d := Z.log2 (Z.pos m) + 1 in
  let h := 2 ^ (d - 1) in
  (e + d - 1) * LN2 + 2 * atanh ((Z.pos m - h) * ONE / (Z.pos m + h)).

Definition log (x : spec_float) : spec_float :=
  match x with
  | S754_nan => S754_nan
  | S754_zero _ => S754_infinity true
  | S754_infinity false => x
  | S754_infinity true => S754_nan
  | S754_finite true _ _ => S754_nan
  | S754_finite false m e =>
      binary_normalize F64.prec F64.emax (ln_fixed m e) (- FRAC) false
  end.

(** [x^n] for a finite non-zero [x = (-1)^s m 2^e] and [n > 0]: exact,
    then rounded. *)
Definition pow_pos (s : bool) (m : positive) (e : Z) (n : Z) : spec_float :=
  let mag := Z.pos m ^ n in
  binary_normalize F64.prec F64.emax
    (if s && Z.odd n then - mag else mag) (e * n) false.

(** [x^(-n)] for [n > 0]: the quotient [2^sh / m^n] keeps 120 bits more
    than [m^n] has, and a sticky bit records a non-zero remainder. *)
Definition pow_neg (s : bool) (m : positive) (e : Z) (n : Z) : spec_float :=
  let mag := Z.pos m ^ n in
  let sh := Z.log2 mag + 121 in
  let q := 2 ^ sh / mag in
  let r := 2 ^ sh mod mag in
  let mant := 2 * q + (if r =? 0 then 0 else 1) in
  binary_normalize F64.prec F64.emax
    (if s && Z.odd n then - mant else mant) (- sh - 1 - e * n) false.

(** The exponent when it is an integer. *)
Definition integral (y : spec_float) : option Z :=
  match y with
  | S754_zero _ => Some 0
  | S754_finite s m e =>
      if 0 <=? e then Some (if s then - (Z.pos m * 2 ^ e) else Z.pos m * 2 ^ e)
      else if Z.pos m mod 2 ^ (- e) =? 0
           then Some (if s then - (Z.pos m / 2 ^ (- e)) else Z.pos m / 2 ^ (- e))
           else None
  | _ => None
  end.

Definition pow (x y : spec_float) : spec_float :=
  match integral y with
  | None => S754_nan
  | Some 0 => F64.of_Z 1
  | Some n =>
      match x with
      | S754_nan => S754_nan
      | S754_finite s m e =>
          if 0 <? n then pow_pos s m e n else pow_neg s m e (- n)
      | S754_zero s =>
          if 0 <? n then S754_zero (s && Z.odd n)
          else S754_infinity (s && Z.odd n)
      | S754_infinity s =>
          if 0 <? n then S754_infinity (s && Z.odd n)
          else S754_zero (s && Z.odd n)
      end
  end.

End Libm.

(** * Definitions used to state the properties *)

(** ** Intervals of integers *)

Definition Z_range (lo : Z) (n : nat) : list Z :=
  map (fun i => lo + Z.of_nat i) (seq 0 n).

(** ** Both variables of the Fibonacci loop after [n] passes *)

Fixpoint fib_iter (n : nat) (a b : Z) : Z * Z :=
  match n with
  | O => (a, b)
  | S n' => fib_iter n' b (wrap64 (a + b))
  end.

Fixpoint fib_iter_exact (n : nat) (a b : Z) : Z * Z :=
  match n with
  | O => (a, b)
  | S n' => fib_iter_exact n' b (a + b)
  end.

(** ** Order on floats *)

Definition is_nan (x : spec_float) : bool :=
  match x with S754_nan => true | _ => false end.

(** ** The bracket search, as both loops perform it

    Both loops compare successive Fibonacci numbers, converted to
    [float], with [miles]. [first_fail k miles j] is the first index from
    [j] on, among [k] indices, whose Fibonacci number is not [<= miles],
    and [j + k] when there is none. *)

Definition passes (miles : spec_float) (j : Z) : bool :=
  F32.leb (F32.of_Z (fibonacci j)) miles.

Fixpoint first_fail (k : nat) (miles : spec_float) (j : Z) : Z :=
  match k with
  | O => j
  | S k' => if passes miles j then first_fail k' miles (j + 1) else j
  end.

(** ** The table after initialisation *)

Definition fib_table : list Z :=
  (fun n => fibonacci (Z.of_nat n)) <$> seq 0 (Z.to_nat MAX_CACHE).

Definition cache_state_ready : cache_state := CacheState fib_table true.

(** ** The states of the walk of [fib_interpolate] *)

Definition walk_at (n : Z) : walk :=
  if n =? 0 then walk_start
  else Walk (fibonacci (n + 1)) (fibonacci (n + 2)) (fibonacci (n + 2)) (fibonacci (n + 3)).


(** ** The states of the static cache that calls can produce *)

Inductive cache_reachable : cache_state -> Prop :=
| reach_start : cache_reachable cache_state_start
| reach_call st miles :
    cache_reachable st -> cache_reachable (fst (fib_cache_convert st miles)).

(** A sequence of calls, threading the static state; the results in call
    order. *)
Fixpoint run_calls (st : cache_state) (args : list spec_float)
  : cache_state * list (outcome spec_float) :=
  match args with
  | [] => (st, [])
  | miles :: rest =>
      let '(st', r) := fib_cache_convert st miles in
      let '(st'', rs) := run_calls st' rest in
      (st'', r :: rs)
  end.

(** A positive finite value. *)
Definition is_pos_finite (x : spec_float) : bool :=
  match x with S754_finite false _ _ => true | _ => false end.

(** ** Arguments used as examples *)

Definition f_5e18 : spec_float := F32.of_Z 5000000000000000000.
Definition f_1e19 : spec_float := F32.of_Z 10000000000000000000.
(** 2.5f, 0.000001f; 3.0625f and 3.078125f are 196/64 and 197/64. *)
Definition f_2_5 : spec_float := F32.div (F32.of_Z 5) (F32.of_Z 2).
Definition f_1e_6 : spec_float := F32.div (F32.of_Z 1) (F32.of_Z 1000000).
Definition f_3_0625 : spec_float := F32.div (F32.of_Z 196) (F32.of_Z 64).
Definition f_3_078125 : spec_float := F32.div (F32.of_Z 197) (F32.of_Z 64).

(** What the claims say of an interpolation denominator. *)
Definition good_denominator (d : Z) : bool :=
  (3 <=? d) && (wrap64 d =? d) && is_pos_finite (F32.of_Z (wrap64 d)).


(** ** Rounding to nearest even, on integers

    [rne n k] is [n / 2^k] rounded to nearest, ties to even;
    [round_mant_exp prec emax n e] is the mantissa and exponent the format
    gives to the value [n * 2^e], and [mk_float] the floating value they
    make. [binary_round_spec] below proves that this is what
    [binary_round] computes. *)

Definition rne (n k : Z) : Z :=
  let q := n / 2 ^ k in
  let r := n mod 2 ^ k in
  if (2 ^ k <? 2 * r) || ((2 ^ k =? 2 * r) && Z.odd q) then q + 1 else q.

Definition round_mant_exp (prec emax : Z) (n e : Z) : Z * Z :=
  let fe := fexp prec emax (Z.log2 n + 1 + e) in
  if fe <=? e then (n * 2 ^ (e - fe), fe)
  else
    let q := rne n (fe - e) in
    if q =? 2 ^ prec then (2 ^ (prec - 1), fe + 1) else (q, fe).

Definition mk_float (prec emax : Z) (s : bool) (me : Z * Z) : spec_float :=
  match fst me with
  | Z0 => S754_zero s
  | Zpos m =>
      if snd me <=? emax - prec then S754_finite s m (snd me) else S754_infinity s
  | Zneg _ => S754_nan
  end.


Definition val (E : Z) (me : Z * Z) : Z := fst me * 2 ^ (snd me - E).


(** A positive mantissa in canonical form: the exponent is the one the
    format gives to a number with that many digits. *)
Definition canonical_mant (prec emax : Z) (m e : Z) : Prop :=
  0 < m /\ e = fexp prec emax (Z.log2 m + 1 + e).

(** Non-negative values in canonical form. *)
Inductive nonneg_canonical (prec emax : Z) : spec_float -> Prop :=
| nn_zero : nonneg_canonical prec emax (S754_zero false)
| nn_finite m e :
    canonical_mant prec emax (Z.pos m) e ->
    nonneg_canonical prec emax (S754_finite false m e)
| nn_infinity : nonneg_canonical prec emax (S754_infinity false).

(** ** Brackets of the interpolation *)

(** A positive finite value in canonical form and in range. *)
Definition pos_valid (x : spec_float) : bool :=
  match x with
  | S754_finite false _ _ => F32.valid x
  | _ => false
  end.

Definition bracket_value (i : Z) (miles : spec_float) : spec_float :=
  interpolation miles (fibonacci i) (fibonacci (i - 1)) (fibonacci (i + 1)) (fibonacci i).

Definition piece_ok (i : Z) : bool :=
  pos_valid (F32.of_Z (fibonacci (i - 1)))
  && pos_valid (F32.of_Z (fibonacci i))
  && pos_valid (F32.div (F32.of_Z (wrap64 (fibonacci (i + 1) - fibonacci i)))
                  (F32.of_Z (wrap64 (fibonacci i - fibonacci (i - 1)))))
  && F32.leb (F32.of_Z (fibonacci i)) (bracket_value i (F32.of_Z (fibonacci (i - 1))))
  && F32.leb (bracket_value i (F32.of_Z (fibonacci i))) (F32.of_Z (fibonacci (i + 1))).

(** The last bracket whose end points round the right way. *)
Definition LAST_PIECE : Z := 41.

(** The floating value [(mc, ec)] is the integer [c]. *)
Definition exact_int (mc : positive) (ec c : Z) : Prop :=
  Z.pos mc * 2 ^ (ec - Z.min 0 ec) = c * 2 ^ (- Z.min 0 ec).

Definition f_93 : spec_float := F32.of_Z 93.


(** ** Definitions for the further properties *)

(** Equality test on positive finite values. *)
Definition same_float (a b : spec_float) : bool :=
  match a, b with
  | S754_finite false m e, S754_finite false m' e' => (Z.pos m =? Z.pos m') && (e =? e')
  | _, _ => false
  end.

(** [fib_interpolate] sends the [k]-th Fibonacci number to the next one. *)
Definition maps_to_next (k : Z) : bool :=
  match fib_interpolate (F32.of_Z (fibonacci k)) with
  | Some (Done r) => same_float r (F32.of_Z (fibonacci (k + 1)))
  | _ => false
  end.

(** The same for the table search of [fib_cache_convert]. *)
Definition cache_maps_to_next (k : Z) : bool :=
  match cache_convert fib_table (F32.of_Z (fibonacci k)) with
  | Done r => same_float r (F32.of_Z (fibonacci (k + 1)))
  | _ => false
  end.

(** 2147483520 = 2^31 - 128 is the largest [float] below 2^31. *)
Definition f_int_max : spec_float := F32.of_Z 2147483520.
(** 2^31 = [INT_MAX] + 1, itself a [float]. *)
Definition f_2p31 : spec_float := F32.of_Z 2147483648.


(** 2^31 as a [double]. *)
Definition d_2p31 : spec_float := F64.of_Z 2147483648.
(** * Properties *)

Lemma Z_range_forallb (P : Z -> bool) (lo : Z) (n : nat) :
  forallb P (Z_range lo n) = true ->
  forall z, lo <= z < lo + Z.of_nat n -> P z = true.
Proof.
  intros H z Hz. rewrite forallb_forall in H. apply H.
  unfold Z_range. apply in_map_iff. exists (Z.to_nat (z - lo)). split.
  - lia.
  - apply in_seq. lia.
Qed.

(** ** The Fibonacci loop *)

Lemma fib_loop_iter n a b : fib_loop n a b = snd (fib_iter n a b).
Proof. revert a b; induction n as [|n IH]; intros a b; simpl; [reflexivity|apply IH]. Qed.

Lemma fib_loop_exact_iter n a b : fib_loop_exact n a b = snd (fib_iter_exact n a b).
Proof. revert a b; induction n as [|n IH]; intros a b; simpl; [reflexivity|apply IH]. Qed.

(** A pass appended at the end instead of taken at the start. *)
Lemma fib_iter_snoc n a b :
  fib_iter (S n) a b = let '(x, y) := fib_iter n a b in (y, wrap64 (x + y)).
Proof.
  revert a b; induction n as [|n IH]; intros a b; [reflexivity|].
  change (fib_iter (S (S n)) a b) with (fib_iter (S n) b (wrap64 (a + b))).
  rewrite IH. reflexivity.
Qed.

Lemma fib_iter_exact_snoc n a b :
  fib_iter_exact (S n) a b = let '(x, y) := fib_iter_exact n a b in (y, x + y).
Proof.
  revert a b; induction n as [|n IH]; intros a b; [reflexivity|].
  change (fib_iter_exact (S (S n)) a b) with (fib_iter_exact (S n) b (a + b)).
  rewrite IH. reflexivity.
Qed.

Lemma fib_loop_rec n a b :
  fib_loop (S (S n)) a b = wrap64 (fib_loop n a b + fib_loop (S n) a b).
Proof.
  rewrite !fib_loop_iter, (fib_iter_snoc (S n)), (fib_iter_snoc n).
  destruct (fib_iter n a b) as [x y]. reflexivity.
Qed.

(** Over unbounded integers the pair stays ordered and never shrinks. *)
Lemma fib_iter_exact_order n a b :
  0 <= a <= b ->
  0 <= fst (fib_iter_exact n a b) <= snd (fib_iter_exact n a b)
  /\ b <= snd (fib_iter_exact n a b).
Proof.
  revert a b; induction n as [|n IH]; intros a b Hab; simpl; [lia|].
  destruct (IH b (a + b)) as [H1 H2]; lia.
Qed.

Lemma fib_loop_exact_mono n k a b :
  0 <= a <= b -> fib_loop_exact n a b <= fib_loop_exact (n + k) a b.
Proof.
  intros Hab. revert n. induction k as [|k IH]; intros n.
  - rewrite Nat.add_0_r. lia.
  - replace (n + S k)%nat with (S n + k)%nat by lia.
    etransitivity; [|apply IH].
    rewrite !fib_loop_exact_iter, fib_iter_exact_snoc.
    pose proof (fib_iter_exact_order n a b Hab) as [H _].
    destruct (fib_iter_exact n a b) as [x y]; simpl in *. lia.
Qed.

(** While the unbounded result fits in 64 bits, no addition of the
    loop wraps: the two loops go through the same values. *)
Lemma fib_iter_no_wrap n a b :
  0 <= a <= b -> snd (fib_iter_exact n a b) < UINT64_MOD ->
  fib_iter n a b = fib_iter_exact n a b.
Proof.
  revert a b; induction n as [|n IH]; intros a b Hab Hlt; simpl in *; [reflexivity|].
  assert (H0 : 0 <= b <= a + b) by lia.
  destruct (fib_iter_exact_order n b (a + b) H0) as [_ Hge].
  unfold wrap64. rewrite Z.mod_small by lia. apply IH; assumption.
Qed.

Lemma fibonacci_wrap_rec n :
  2 <= n -> fibonacci n = wrap64 (fibonacci (n - 1) + fibonacci (n - 2)).
Proof.
  intros Hn. unfold fibonacci.
  destruct (Z.ltb_spec n 0); [lia|].
  destruct (Z.eqb_spec n 0); [lia|].
  destruct (Z.eqb_spec n 1); [lia|].
  destruct (Z.ltb_spec (n - 1) 0); [lia|].
  destruct (Z.ltb_spec (n - 2) 0); [lia|].
  destruct (Z.eqb_spec (n - 1) 0); [lia|].
  destruct (Z.eqb_spec (n - 1) 1) as [E1|E1].
  - replace n with 2 by lia. reflexivity.
  - destruct (Z.eqb_spec (n - 2) 0); [lia|].
    destruct (Z.eqb_spec (n - 2) 1) as [E2|E2].
    + replace n with 3 by lia. reflexivity.
    + replace (Z.to_nat (n - 1)) with (S (S (Z.to_nat (n - 2 - 1)))) by lia.
      replace (Z.to_nat (n - 1 - 1)) with (S (Z.to_nat (n - 2 - 1))) by lia.
      rewrite fib_loop_rec. f_equal. lia.
Qed.

Lemma fibonacci_exact_mono n m :
  0 <= n <= m -> fibonacci_exact n <= fibonacci_exact m.
Proof.
  intros H. unfold fibonacci_exact.
  destruct (Z.ltb_spec n 0); [lia|]. destruct (Z.ltb_spec m 0); [lia|].
  destruct (Z.eqb_spec n 0) as [->|].
  - destruct (Z.eqb_spec m 0); [lia|]. destruct (Z.eqb_spec m 1); [lia|].
    pose proof (fib_iter_exact_order (Z.to_nat (m - 1)) 0 1 ltac:(lia)).
    rewrite fib_loop_exact_iter. lia.
  - destruct (Z.eqb_spec m 0); [lia|].
    destruct (Z.eqb_spec n 1) as [->|].
    + destruct (Z.eqb_spec m 1); [lia|].
      pose proof (fib_iter_exact_order (Z.to_nat (m - 1)) 0 1 ltac:(lia)).
      rewrite fib_loop_exact_iter. lia.
    + destruct (Z.eqb_spec m 1); [lia|].
      replace (Z.to_nat (m - 1)) with (Z.to_nat (n - 1) + Z.to_nat (m - n))%nat by lia.
      apply fib_loop_exact_mono. lia.
Qed.

(** Up to index 93 [fibonacci] computes the unbounded recurrence. *)
Lemma fibonacci_no_wrap n : n <= 93 -> fibonacci n = fibonacci_exact n.
Proof.
  intros Hn. unfold fibonacci, fibonacci_exact.
  destruct (n <? 0); [reflexivity|].
  destruct (n =? 0); [reflexivity|].
  destruct (Z.eqb_spec n 1); [reflexivity|].
  rewrite fib_loop_iter, fib_loop_exact_iter. f_equal.
  apply fib_iter_no_wrap; [lia|].
  rewrite <- fib_loop_exact_iter.
  apply Z.le_lt_trans with (fib_loop_exact 92 0 1); [|reflexivity].
  replace 92%nat with (Z.to_nat (n - 1) + (92 - Z.to_nat (n - 1)))%nat by lia.
  apply fib_loop_exact_mono. lia.
Qed.

Lemma fibonacci_range n : n <= 93 -> 0 <= fibonacci n < UINT64_MOD.
Proof.
  intros Hn. rewrite fibonacci_no_wrap by assumption.
  destruct (Z.le_gt_cases 0 n).
  - split.
    + change 0 with (fibonacci_exact 0). apply fibonacci_exact_mono. lia.
    + apply Z.le_lt_trans with (fibonacci_exact 93); [|reflexivity].
      apply fibonacci_exact_mono. lia.
  - unfold fibonacci_exact. destruct (Z.ltb_spec n 0); [|lia]. split; reflexivity.
Qed.

(** C6. For every [n] with [2 <= n <= 93], [fibonacci n] is the sum of
    [fibonacci (n-1)] and [fibonacci (n-2)] (the mathematical sum: nothing
    wraps), and [fibonacci 0 = 0], [fibonacci 1 = 1]. *)
Theorem fibonacci_recurrence :
  fibonacci 0 = 0 /\ fibonacci 1 = 1 /\
  forall n, 2 <= n <= 93 -> fibonacci n = fibonacci (n - 1) + fibonacci (n - 2).
Proof.
  split; [reflexivity|]. split; [reflexivity|].
  intros n Hn.
  rewrite (fibonacci_no_wrap n), (fibonacci_no_wrap (n - 1)),
    (fibonacci_no_wrap (n - 2)) by lia.
  unfold fibonacci_exact.
  destruct (Z.ltb_spec n 0); [lia|].
  destruct (Z.eqb_spec n 0); [lia|].
  destruct (Z.eqb_spec n 1); [lia|].
  destruct (Z.ltb_spec (n - 1) 0); [lia|].
  destruct (Z.ltb_spec (n - 2) 0); [lia|].
  destruct (Z.eqb_spec (n - 1) 0); [lia|].
  destruct (Z.eqb_spec (n - 1) 1) as [E1|E1].
  - replace n with 2 by lia. reflexivity.
  - destruct (Z.eqb_spec (n - 2) 0); [lia|].
    destruct (Z.eqb_spec (n - 2) 1) as [E2|E2].
    + replace n with 3 by lia. reflexivity.
    + replace (Z.to_nat (n - 1)) with (S (S (Z.to_nat (n - 2 - 1)))) by lia.
      replace (Z.to_nat (n - 1 - 1)) with (S (Z.to_nat (n - 2 - 1))) by lia.
      rewrite !fib_loop_exact_iter, (fib_iter_exact_snoc (S _)), fib_iter_exact_snoc.
      destruct (fib_iter_exact _ 0 1) as [x y]. simpl. lia.
Qed.

Lemma fibonacci_recurrence_witness :
  2 <= 93 <= 93 /\ fibonacci 93 = fibonacci (93 - 1) + fibonacci (93 - 2).
Proof.
  split; [lia|]. apply (proj2 (proj2 fibonacci_recurrence) 93). lia.
Defined.

(** ** The order of [SFcompare]

    [SFcompare] orders the finite values by sign, then exponent, then
    mantissa, so [SFleb] is a total preorder on everything but NaN,
    whatever the representation. *)

Lemma SFcompare_antisym x y :
  SFcompare y x = option_map CompOpp (SFcompare x y).
Proof.
  destruct x as [sx|sx| |sx mx ex], y as [sy|sy| |sy my ey]; simpl;
    try reflexivity; try (destruct sx; reflexivity); try (destruct sy; reflexivity);
    try (destruct sx, sy; reflexivity).
  destruct sx, sy; simpl; try reflexivity;
    rewrite (Z.compare_antisym ey ex);
    destruct (ey ?= ex); simpl; try reflexivity;
    rewrite (Pos.compare_cont_antisym _ _ Eq); simpl; try reflexivity.
  rewrite CompOpp_involutive. reflexivity.
Qed.

Lemma SFltb_false_leb x y :
  is_nan x = false -> is_nan y = false -> SFltb x y = false -> SFleb y x = true.
Proof.
  intros Hx Hy. unfold SFltb, SFleb. rewrite (SFcompare_antisym x y).
  destruct x, y; try discriminate; simpl;
    repeat match goal with
           | |- context [match ?c with _ => _ end] => destruct c; simpl
           end; congruence.
Qed.

Lemma SFleb_not_nan x y : SFleb x y = true -> is_nan x = false /\ is_nan y = false.
Proof. destruct x, y; simpl; try discriminate; auto. Qed.

Lemma SFltb_not_nan x y : SFltb x y = true -> is_nan x = false /\ is_nan y = false.
Proof. destruct x, y; simpl; try discriminate; auto. Qed.

Lemma SFleb_ltb x y : SFleb x y = true -> SFltb y x = false.
Proof.
  unfold SFltb, SFleb. rewrite (SFcompare_antisym x y).
  destruct (SFcompare x y) as [[]|]; simpl; congruence.
Qed.

Lemma SFltb_leb x y : SFltb x y = true -> SFleb x y = true.
Proof. unfold SFltb, SFleb. destruct (SFcompare x y) as [[]|]; congruence. Qed.

Lemma SFleb_trans x y z : SFleb x y = true -> SFleb y z = true -> SFleb x z = true.
Proof.
  unfold SFleb.
  destruct x as [sx|sx| |sx mx ex], y as [sy|sy| |sy my ey], z as [sz|sz| |sz mz ez]; simpl;
    try discriminate; try reflexivity;
    try (destruct sx; simpl; try discriminate; try reflexivity);
    try (destruct sy; simpl; try discriminate; try reflexivity);
    try (destruct sz; simpl; try discriminate; try reflexivity).
  all: rewrite ?Pos.compare_cont_spec; simpl.
  all: destruct (Z.compare_spec ex ey), (Z.compare_spec ey ez), (Z.compare_spec ex ez);
    simpl; try discriminate; try reflexivity; try lia; subst.
  all: destruct (Pos.compare_spec mx my), (Pos.compare_spec my mz), (Pos.compare_spec mx mz);
    simpl; try discriminate; try reflexivity; try lia.
Qed.

Lemma SFleb_refl x : is_nan x = false -> SFleb x x = true.
Proof.
  unfold SFleb. destruct x as [s|s| |s m e]; simpl; try discriminate; try reflexivity.
  - destruct s; reflexivity.
  - intros _. rewrite Pos.compare_cont_spec, Z.compare_refl, Pos.compare_refl; simpl.
    destruct s; reflexivity.
Qed.

Lemma first_fail_range k miles j : j <= first_fail k miles j <= j + Z.of_nat k.
Proof.
  revert j; induction k as [|k IH]; intros j; simpl; [lia|].
  destruct (passes miles j); [specialize (IH (j + 1))|]; lia.
Qed.

Lemma first_fail_passes k miles j i :
  j <= i < first_fail k miles j -> passes miles i = true.
Proof.
  revert j; induction k as [|k IH]; intros j; simpl; [lia|].
  destruct (passes miles j) eqn:E; [|lia].
  intros H. destruct (Z.eq_dec i j) as [->|]; [assumption|].
  apply (IH (j + 1)). lia.
Qed.

Lemma first_fail_fails k miles j :
  first_fail k miles j < j + Z.of_nat k -> passes miles (first_fail k miles j) = false.
Proof.
  revert j; induction k as [|k IH]; intros j; simpl; [lia|].
  destruct (passes miles j) eqn:E; [|auto].
  intros H. apply IH. lia.
Qed.

Lemma first_fail_all k miles j :
  (forall i, j <= i < j + Z.of_nat k -> passes miles i = true) ->
  first_fail k miles j = j + Z.of_nat k.
Proof.
  intros H. pose proof (first_fail_range k miles j).
  destruct (Z.eq_dec (first_fail k miles j) (j + Z.of_nat k)); [assumption|].
  pose proof (first_fail_fails k miles j ltac:(lia)) as Hf.
  rewrite H in Hf; [discriminate|lia].
Qed.

Lemma first_fail_le k miles j i :
  j <= i -> passes miles i = false -> first_fail k miles j <= i.
Proof.
  intros Hji Hi. destruct (Z.le_gt_cases (first_fail k miles j) i); [assumption|].
  rewrite (first_fail_passes k miles j i) in Hi by lia. discriminate.
Qed.

(** One more index at the end. *)
Lemma first_fail_snoc k miles j :
  first_fail (S k) miles j =
  let r := first_fail k miles j in
  if (r =? j + Z.of_nat k) && passes miles r then r + 1 else r.
Proof.
  revert j; induction k as [|k IH]; intros j.
  - simpl. rewrite Z.add_0_r, Z.eqb_refl. reflexivity.
  - change (first_fail (S (S k)) miles j)
      with (if passes miles j then first_fail (S k) miles (j + 1) else j).
    change (first_fail (S k) miles j)
      with (if passes miles j then first_fail k miles (j + 1) else j).
    destruct (passes miles j) eqn:E.
    + rewrite IH. cbv zeta.
      replace (j + 1 + Z.of_nat k) with (j + Z.of_nat (S k)) by lia. reflexivity.
    + cbv zeta. destruct (Z.eqb_spec j (j + Z.of_nat (S k))); [lia|reflexivity].
Qed.

Lemma fib_table_length : length fib_table = Z.to_nat MAX_CACHE.
Proof. reflexivity. Qed.

Lemma fib_table_get i :
  0 <= i < MAX_CACHE -> array_get fib_table i = Done (fibonacci i).
Proof.
  intros Hi. unfold array_get, fib_table.
  destruct (Z.leb_spec 0 i); [|lia].
  rewrite list_lookup_fmap, lookup_seq_lt by (unfold MAX_CACHE in *; lia).
  simpl. rewrite Z2Nat.id by lia. reflexivity.
Qed.

Lemma cache_init_start : cache_init (cache cache_state_start) = Done fib_table.
Proof. vm_compute. reflexivity. Qed.

Lemma fibonacci_mono n m : 0 <= n <= m -> m <= 93 -> fibonacci n <= fibonacci m.
Proof.
  intros H1 H2. rewrite !fibonacci_no_wrap by lia. apply fibonacci_exact_mono. lia.
Qed.

Lemma curr_mile_walk_at n : 0 <= n -> curr_mile (walk_at n) = fibonacci (n + 2).
Proof.
  intros Hn. unfold walk_at. destruct (Z.eqb_spec n 0) as [->|]; reflexivity.
Qed.

(** A pass of the loop moves to the next state; the overflow check fires
    exactly when the new [curr_km] would be the 94th Fibonacci number. *)
Lemma walk_step_at n :
  0 <= n <= 90 -> walk_step (walk_at n) = (walk_at (n + 1), n =? 90).
Proof.
  intros Hn. destruct (Z.eq_dec n 0) as [->|H0]; [reflexivity|].
  destruct (Z.eq_dec n 90) as [->|H90]; [vm_compute; reflexivity|].
  unfold walk_at. destruct (Z.eqb_spec n 0); [lia|].
  destruct (Z.eqb_spec (n + 1) 0); [lia|]. destruct (Z.eqb_spec n 90); [lia|].
  unfold walk_step; simpl.
  replace (n + 1 + 1) with (n + 2) by lia. replace (n + 1 + 2) with (n + 3) by lia.
  replace (n + 1 + 3) with (n + 4) by lia.
  assert (E : wrap64 (fibonacci (n + 2) + fibonacci (n + 3)) = fibonacci (n + 4)).
  { rewrite (fibonacci_wrap_rec (n + 4)) by lia. f_equal.
    replace (n + 4 - 1) with (n + 3) by lia. replace (n + 4 - 2) with (n + 2) by lia.
    lia. }
  rewrite E.
  pose proof (fibonacci_mono (n + 3) (n + 4) ltac:(lia) ltac:(lia)).
  pose proof (fibonacci_mono (n + 2) (n + 3) ltac:(lia) ltac:(lia)).
  destruct (Z.ltb_spec (fibonacci (n + 4)) (fibonacci (n + 3))); [lia|].
  destruct (Z.ltb_spec (fibonacci (n + 3)) (fibonacci (n + 2))); [lia|].
  reflexivity.
Qed.

(** ** What the two loops compute *)

Lemma interpolate_walk_at miles k : forall n fuel,
  0 <= n -> n + Z.of_nat k = 90 -> (S k <= fuel)%nat ->
  interpolate_walk fuel miles (walk_at n)
  = Some (walk_at (first_fail (S k) miles (n + 2) - 2)).
Proof.
  induction k as [|k IH]; intros n fuel Hn Hk Hf;
    (destruct fuel as [|fuel]; [lia|]);
    cbn [interpolate_walk first_fail];
    rewrite curr_mile_walk_at by lia; fold (passes miles (n + 2));
    destruct (passes miles (n + 2)) eqn:E.
  - rewrite walk_step_at by lia. replace n with 90 by lia. reflexivity.
  - do 2 f_equal. lia.
  - rewrite walk_step_at by lia. destruct (Z.eqb_spec n 90); [lia|].
    rewrite IH by lia. cbn [first_fail].
    replace (n + 1 + 2) with (n + 2 + 1) by lia. reflexivity.
  - do 2 f_equal. lia.
Qed.

Lemma interpolate_walk_spec miles :
  interpolate_walk WALK_FUEL miles walk_start
  = Some (walk_at (first_fail 91 miles 2 - 2)).
Proof. apply (interpolate_walk_at miles 90 0); unfold WALK_FUEL; lia. Qed.

Lemma cache_search_at miles k : forall i,
  2 <= i -> i + Z.of_nat k = 92 ->
  cache_search k fib_table miles i = Done (first_fail k miles i).
Proof.
  induction k as [|k IH]; intros i Hi Hk; [reflexivity|].
  cbn [cache_search first_fail].
  destruct (Z.ltb_spec i (MAX_CACHE - 2)); [|unfold MAX_CACHE in *; lia].
  rewrite fib_table_get by (unfold MAX_CACHE; lia).
  change (mbind ?f (Done ?v)) with (f v). cbv beta.
  fold (passes miles i). destruct (passes miles i); [|reflexivity].
  apply IH; lia.
Qed.

Lemma cache_convert_spec miles :
  cache_convert fib_table miles =
  if F32.ltb miles f_5 then basic_miles2km_call miles
  else
    let i := first_fail 90 miles 2 in
    if 92 <=? i then basic_miles2km_call miles
    else Done (interpolation miles (fibonacci i) (fibonacci (i - 1))
                 (fibonacci (i + 1)) (fibonacci i)).
Proof.
  unfold cache_convert. destruct (F32.ltb miles f_5); [reflexivity|].
  change (Z.to_nat (MAX_CACHE - 2 - 2)) with 90%nat.
  rewrite (cache_search_at miles 90 2) by lia.
  change (mbind ?f (Done ?v)) with (f v). cbv beta zeta.
  change (MAX_CACHE - 2) with 92.
  pose proof (first_fail_range 90 miles 2).
  destruct (Z.leb_spec 92 (first_fail 90 miles 2)); [reflexivity|].
  rewrite !fib_table_get by (unfold MAX_CACHE; lia).
  reflexivity.
Qed.

Lemma fib_interpolate_spec miles :
  fib_interpolate miles =
  Some (if F32.ltb miles f_5 then basic_miles2km_call miles
        else
          let w := walk_at (first_fail 91 miles 2 - 2) in
          Done (interpolation miles (prev_km w) (prev_mile w) (curr_km w) (curr_mile w))).
Proof.
  unfold fib_interpolate, fib_interpolate_fuel.
  destruct (F32.ltb miles f_5); [reflexivity|].
  rewrite interpolate_walk_spec. reflexivity.
Qed.

(** The walk of [fib_interpolate] always leaves its loop: the function
    returns for every argument. *)
Lemma fib_interpolate_total miles : exists r, fib_interpolate miles = Some r.
Proof. rewrite fib_interpolate_spec. eauto. Qed.

(** More fuel changes nothing. *)
Lemma fib_interpolate_fuel_enough fuel miles :
  (91 <= fuel)%nat -> fib_interpolate_fuel fuel miles = fib_interpolate miles.
Proof.
  intros Hf. unfold fib_interpolate, fib_interpolate_fuel.
  destruct (F32.ltb miles f_5); [reflexivity|].
  change walk_start with (walk_at 0).
  rewrite (interpolate_walk_at miles 90 0 fuel), (interpolate_walk_at miles 90 0 WALK_FUEL)
    by (unfold WALK_FUEL; lia).
  reflexivity.
Qed.

Lemma fib_cache_convert_start miles :
  fib_cache_convert cache_state_start miles
  = (cache_state_ready, cache_convert fib_table miles).
Proof.
  unfold fib_cache_convert. cbn [initialized cache_state_start].
  rewrite cache_init_start. reflexivity.
Qed.

Lemma fib_cache_convert_ready miles :
  fib_cache_convert cache_state_ready miles
  = (cache_state_ready, cache_convert fib_table miles).
Proof. reflexivity. Qed.

Lemma cache_reachable_inv st :
  cache_reachable st -> st = cache_state_start \/ st = cache_state_ready.
Proof.
  induction 1 as [|st miles _ [-> | ->]]; [left; reflexivity| |].
  - right. rewrite fib_cache_convert_start. reflexivity.
  - right. reflexivity.
Qed.

Lemma fib_cache_convert_reachable st miles :
  cache_reachable st ->
  fib_cache_convert st miles = (cache_state_ready, cache_convert fib_table miles).
Proof.
  intros [-> | ->]%cache_reachable_inv;
    [apply fib_cache_convert_start | apply fib_cache_convert_ready].
Qed.

(** Conversions of small Fibonacci numbers compared with 5.0f, and of all
    table entries compared with the 91st. *)
Lemma passes_of_ge_5 miles j :
  F32.leb f_5 miles = true -> 2 <= j <= 5 -> passes miles j = true.
Proof.
  intros H Hj. unfold passes, F32.leb in *.
  apply SFleb_trans with f_5; [|assumption].
  apply (Z_range_forallb (fun j => SFleb (F32.of_Z (fibonacci j)) f_5) 2 4);
    [vm_compute; reflexivity | lia].
Qed.

Lemma passes_of_ge_fib91 miles j :
  passes miles 91 = true -> 2 <= j <= 91 -> passes miles j = true.
Proof.
  intros H Hj. unfold passes, F32.leb in *.
  apply SFleb_trans with (F32.of_Z (fibonacci 91)); [|assumption].
  apply (Z_range_forallb
           (fun j => SFleb (F32.of_Z (fibonacci j)) (F32.of_Z (fibonacci 91))) 2 90);
    [vm_compute; reflexivity | lia].
Qed.

Lemma not_lt_5_of_passes miles j :
  5 <= j <= 93 -> passes miles j = true -> F32.ltb miles f_5 = false.
Proof.
  intros Hj H. unfold passes, F32.leb, F32.ltb in *. apply SFleb_ltb.
  apply SFleb_trans with (F32.of_Z (fibonacci j)); [|assumption].
  apply (Z_range_forallb (fun j => SFleb f_5 (F32.of_Z (fibonacci j))) 5 89);
    [vm_compute; reflexivity | lia].
Qed.

(** C2 (amended). For every [miles < 5.0f], [fib_interpolate] and
    [fib_cache_convert] (in any state that calls can reach) bypass the
    interpolation and return what the call [basic_miles2km(miles)]
    returns. [fib_golden_ratio] is left out: it has no such test. *)
Theorem low_range_fallback st miles :
  cache_reachable st -> F32.ltb miles f_5 = true ->
  fib_interpolate miles = Some (basic_miles2km_call miles)
  /\ snd (fib_cache_convert st miles) = basic_miles2km_call miles.
Proof.
  intros Hst Hlt. split.
  - rewrite fib_interpolate_spec, Hlt. reflexivity.
  - rewrite fib_cache_convert_reachable by assumption. cbn [snd].
    rewrite cache_convert_spec, Hlt. reflexivity.
Qed.

Lemma low_range_fallback_witness :
  fib_interpolate (F32.of_Z 3) = Some (basic_miles2km_call (F32.of_Z 3))
  /\ snd (fib_cache_convert cache_state_start (F32.of_Z 3)) = basic_miles2km_call (F32.of_Z 3).
Proof.
  apply (low_range_fallback cache_state_start (F32.of_Z 3)).
  - apply reach_start.
  - vm_compute. reflexivity.
Defined.

(** C2 as stated fails for [fib_golden_ratio]: at 3.0f, below 5, it
    interpolates between Binet values and returns 5.0f, while
    [basic_miles2km(3)] is 4.828032f. *)
Lemma golden_ratio_no_low_range_fallback :
  F32.leb f_0 (F32.of_Z 3) = true /\ F32.ltb (F32.of_Z 3) f_5 = true
  /\ fib_golden_ratio Libm.log Libm.pow (F32.of_Z 3) = Done (F32.of_Z 5)
  /\ basic_miles2km_call (F32.of_Z 3) = Done (S754_finite false 10125117 (-21))
  /\ fib_golden_ratio Libm.log Libm.pow (F32.of_Z 3) <> basic_miles2km_call (F32.of_Z 3).
Proof.
  assert (H1 : fib_golden_ratio Libm.log Libm.pow (F32.of_Z 3) = Done (F32.of_Z 5))
    by (vm_compute; reflexivity).
  assert (H2 : basic_miles2km_call (F32.of_Z 3) = Done (S754_finite false 10125117 (-21)))
    by (vm_compute; reflexivity).
  split; [vm_compute; reflexivity|]. split; [vm_compute; reflexivity|].
  split; [exact H1|]. split; [exact H2|].
  rewrite H1, H2. vm_compute. discriminate.
Qed.

(** C3 (amended). For every [miles] that is not [>=] the 91st Fibonacci
    number as a [float] (so that the search of [fib_cache_convert] stops
    inside its table), [fib_interpolate] and [fib_cache_convert] return
    the same result, bit for bit. *)
Theorem interpolate_cache_agree st miles :
  cache_reachable st ->
  F32.leb (F32.of_Z (fibonacci 91)) miles = false ->
  fib_interpolate miles = Some (snd (fib_cache_convert st miles)).
Proof.
  intros Hst H91. fold (passes miles 91) in H91.
  rewrite fib_interpolate_spec, fib_cache_convert_reachable by assumption.
  cbn [snd]. rewrite cache_convert_spec. f_equal.
  destruct (F32.ltb miles f_5) eqn:Hlt; [reflexivity|]. cbv zeta.
  pose proof (first_fail_le 90 miles 2 91 ltac:(lia) H91) as Hle.
  pose proof (first_fail_range 90 miles 2) as Hr.
  rewrite first_fail_snoc. cbv zeta.
  destruct (Z.eqb_spec (first_fail 90 miles 2) (2 + Z.of_nat 90)); [lia|].
  cbn [andb]. destruct (Z.leb_spec 92 (first_fail 90 miles 2)); [lia|].
  remember (first_fail 90 miles 2) as i eqn:Hi.
  destruct (Z.eq_dec i 2) as [E|E].
  - (* the loops stop at once: [miles] is neither below 5 nor at least 1 *)
    assert (Hp : passes miles 2 = false).
    { rewrite <- E, Hi. apply (first_fail_fails 90 miles 2). lia. }
    destruct (is_nan miles) eqn:Hn.
    + destruct miles; try discriminate Hn. rewrite E. vm_compute. reflexivity.
    + exfalso. apply (SFltb_false_leb miles f_5 Hn eq_refl) in Hlt.
      rewrite (passes_of_ge_5 miles 2 Hlt) in Hp by lia. discriminate.
  - unfold walk_at. destruct (Z.eqb_spec (i - 2) 0); [lia|].
    cbn [prev_km prev_mile curr_km curr_mile].
    replace (i - 2 + 1) with (i - 1) by lia. replace (i - 2 + 2) with i by lia.
    replace (i - 2 + 3) with (i + 1) by lia. reflexivity.
Qed.

Lemma interpolate_cache_agree_witness :
  Forall (fun z => fib_interpolate (F32.of_Z z)
                   = Some (snd (fib_cache_convert cache_state_start (F32.of_Z z))))
    [6; 10; 21; 50; 90].
Proof.
  repeat (apply List.Forall_cons;
          [apply interpolate_cache_agree; [apply reach_start | vm_compute; reflexivity]|]).
  apply List.Forall_nil.
Defined.

(** C3 as stated fails for large arguments: at 5e18f the table search of
    [fib_cache_convert] runs to its bound and the function calls
    [basic_miles2km(miles)], whose [int] parameter cannot hold 5e18, while
    [fib_interpolate] still interpolates (about 8.09e18). *)
Lemma interpolate_cache_disagree :
  fib_interpolate f_5e18 = Some (Done (S754_finite false 14715934 39))
  /\ snd (fib_cache_convert cache_state_start f_5e18) = Undefined CastOutOfRange
  /\ fib_interpolate f_5e18 <> Some (snd (fib_cache_convert cache_state_start f_5e18)).
Proof.
  assert (H1 : fib_interpolate f_5e18 = Some (Done (S754_finite false 14715934 39)))
    by (vm_compute; reflexivity).
  assert (H2 : snd (fib_cache_convert cache_state_start f_5e18) = Undefined CastOutOfRange)
    by (vm_compute; reflexivity).
  split; [assumption|]. split; [assumption|].
  rewrite H1, H2. discriminate.
Qed.

(** C4 (amended). When [miles] is at least the 91st Fibonacci number as
    a [float], so that the search of [fib_cache_convert] exhausts its
    table, [fib_cache_convert] returns what the call
    [basic_miles2km(miles)] returns. [fib_interpolate] does not delegate:
    when its walk reaches the overflow check (the 92nd Fibonacci number
    is [<= miles]) it leaves the loop and interpolates on the last state,
    whose [curr_km] is the wrapped 94th number; otherwise it interpolates
    on the bracket of the 91st and 92nd numbers. *)
Theorem table_exhausted st miles :
  cache_reachable st ->
  F32.leb (F32.of_Z (fibonacci 91)) miles = true ->
  snd (fib_cache_convert st miles) = basic_miles2km_call miles
  /\ fib_interpolate miles =
     Some (Done (if F32.leb (F32.of_Z (fibonacci 92)) miles
                 then interpolation miles (fibonacci 93) (fibonacci 92)
                        (fibonacci 94) (fibonacci 93)
                 else interpolation miles (fibonacci 92) (fibonacci 91)
                        (fibonacci 93) (fibonacci 92))).
Proof.
  intros Hst H91. fold (passes miles 91) in H91.
  assert (Hall : first_fail 90 miles 2 = 92).
  { apply (first_fail_all 90 miles 2). intros i Hi.
    apply passes_of_ge_fib91; [assumption|lia]. }
  assert (Hlt : F32.ltb miles f_5 = false)
    by (apply (not_lt_5_of_passes miles 91); [lia|assumption]).
  split.
  - rewrite fib_cache_convert_reachable by assumption. cbn [snd].
    rewrite cache_convert_spec, Hlt. cbv zeta. rewrite Hall. reflexivity.
  - rewrite fib_interpolate_spec, Hlt. cbv zeta.
    rewrite first_fail_snoc. cbv zeta. rewrite Hall.
    change (92 =? 2 + Z.of_nat 90) with true. cbn [andb].
    fold (passes miles 92). destruct (passes miles 92); reflexivity.
Qed.

Lemma table_exhausted_witness :
  snd (fib_cache_convert cache_state_start f_1e19) = basic_miles2km_call f_1e19
  /\ fib_interpolate f_1e19 =
     Some (Done (if F32.leb (F32.of_Z (fibonacci 92)) f_1e19
                 then interpolation f_1e19 (fibonacci 93) (fibonacci 92)
                        (fibonacci 94) (fibonacci 93)
                 else interpolation f_1e19 (fibonacci 92) (fibonacci 91)
                        (fibonacci 93) (fibonacci 92))).
Proof.
  apply (table_exhausted cache_state_start f_1e19).
  - apply reach_start.
  - vm_compute. reflexivity.
Defined.

(** C4 as stated fails for [fib_interpolate]: at 1e19f, above the 92nd
    Fibonacci number, the walk breaks on the overflow check and the
    function returns an interpolated value (about 1.618e19); it is not
    what [basic_miles2km(miles)] returns, nor [miles * 1.609344f]. *)
Lemma interpolate_does_not_delegate :
  F32.leb (F32.of_Z (fibonacci 92)) f_1e19 = true
  /\ first_fail 91 f_1e19 2 = 93
  /\ fib_interpolate f_1e19 = Some (Done (S754_finite false 14715933 40))
  /\ basic_miles2km_call f_1e19 = Undefined CastOutOfRange
  /\ F32.mul f_1e19 f_1_609344 = S754_finite false 14636898 40
  /\ fib_interpolate f_1e19 <> Some (basic_miles2km_call f_1e19).
Proof.
  assert (H1 : fib_interpolate f_1e19 = Some (Done (S754_finite false 14715933 40)))
    by (vm_compute; reflexivity).
  assert (H2 : basic_miles2km_call f_1e19 = Undefined CastOutOfRange)
    by (vm_compute; reflexivity).
  split; [vm_compute; reflexivity|]. split; [vm_compute; reflexivity|].
  split; [exact H1|]. split; [exact H2|]. split; [vm_compute; reflexivity|].
  rewrite H1, H2. discriminate.
Qed.

(** C8. For every [miles] below the [double] 1e-5 (whatever [log] and
    [pow] are), [fib_golden_ratio] returns 0.0f before taking any
    logarithm. *)
Theorem golden_ratio_tiny_guard log pow miles :
  F64.ltb (F64.round miles) d_1e_5 = true ->
  fib_golden_ratio log pow miles = Done f_0.
Proof. intros H. unfold fib_golden_ratio. cbv zeta. rewrite H. reflexivity. Qed.

Lemma golden_ratio_tiny_guard_witness :
  fib_golden_ratio Libm.log Libm.pow f_1e_6 = Done f_0.
Proof.
  apply (golden_ratio_tiny_guard Libm.log Libm.pow f_1e_6).
  vm_compute. reflexivity.
Defined.

(** C1 fails on the code: the parameter of [basic_miles2km] is an [int],
    so the call [basic_miles2km(2.5)] converts 2.5 to 2 and returns
    2 * 1.609344f = 3.218688f, not 2.5 * 1.609344f = 4.02336f; and the
    finite non-negative argument 3e9 has no [int] value at all. *)
Theorem basic_miles2km_truncates :
  basic_miles2km_call f_2_5 = Done (basic_miles2km 2)
  /\ basic_miles2km 2 = S754_finite false 13500156 (-22)
  /\ F32.mul f_2_5 f_1_609344 = S754_finite false 8437598 (-21)
  /\ basic_miles2km_call (F32.of_Z 3000000000) = Undefined CastOutOfRange.
Proof.
  split; [vm_compute; reflexivity|]. split; [vm_compute; reflexivity|].
  split; vm_compute; reflexivity.
Qed.

Lemma run_calls_reachable st args :
  cache_reachable st -> cache_reachable (fst (run_calls st args)).
Proof.
  revert st; induction args as [|miles rest IH]; intros st Hst; [assumption|].
  cbn [run_calls].
  destruct (fib_cache_convert st miles) as [st' r] eqn:E.
  specialize (IH st').
  destruct (run_calls st' rest) as [st'' rs]. cbn [fst] in *.
  apply IH. change st' with (fst (st', r)). rewrite <- E. apply reach_call, Hst.
Qed.

Lemma fib_table_entry n :
  0 <= n <= 93 -> fib_table !! Z.to_nat n = Some (fibonacci_exact n).
Proof.
  intros Hn. pose proof (fib_table_get n ltac:(unfold MAX_CACHE; lia)) as H.
  unfold array_get in H. destruct (Z.leb_spec 0 n); [|lia].
  destruct (fib_table !! Z.to_nat n); [|discriminate].
  injection H as ->. rewrite fibonacci_no_wrap by lia. reflexivity.
Qed.

(** C10. After any sequence of earlier calls, a call of
    [fib_cache_convert] returns what a first call with the same argument
    returns, and it leaves in the cache the table that the first call
    builds: entry [n] is the [n]th Fibonacci number, [0 <= n <= 93]. *)
Theorem fib_cache_convert_deterministic earlier miles :
  let st := fst (run_calls cache_state_start earlier) in
  snd (fib_cache_convert st miles) = snd (fib_cache_convert cache_state_start miles)
  /\ cache (fst (fib_cache_convert st miles)) = fib_table
  /\ cache (fst (fib_cache_convert cache_state_start miles)) = fib_table
  /\ fib_table = map fibonacci_exact (Z_range 0 94).
Proof.
  cbv zeta.
  pose proof (run_calls_reachable cache_state_start earlier reach_start) as Hr.
  rewrite (fib_cache_convert_reachable _ miles Hr), fib_cache_convert_start.
  cbn [fst snd cache cache_state_ready].
  split; [reflexivity|]. split; [reflexivity|]. split; [reflexivity|].
  vm_compute. reflexivity.
Qed.

Lemma basic_miles2km_call_in_bounds x : basic_miles2km_call x <> Undefined OutOfBounds.
Proof.
  unfold basic_miles2km_call, to_int.
  destruct (trunc x) as [z|]; [|discriminate].
  destruct ((INT_MIN <=? z) && (z <=? INT_MAX)); discriminate.
Qed.

Lemma cache_convert_in_bounds miles :
  cache_convert fib_table miles <> Undefined OutOfBounds.
Proof.
  rewrite cache_convert_spec.
  destruct (F32.ltb miles f_5); [apply basic_miles2km_call_in_bounds|].
  cbv zeta. destruct (92 <=? first_fail 90 miles 2);
    [apply basic_miles2km_call_in_bounds|discriminate].
Qed.

(** C7. [fibonacci 93] is 12200160415121876738; up to index 93 the loop
    of [fibonacci] goes through the values of the unbounded recurrence,
    so nothing wraps (the 93rd number is below 2^64, the 94th is not); the
    static cache has 94 entries, its initialisation writes inside it and
    fills it with the numbers of index 0 to 93, and no call of
    [fib_cache_convert] reads or writes outside it. *)
Theorem fibonacci_93_no_overflow st miles :
  cache_reachable st ->
  fibonacci 93 = 12200160415121876738
  /\ map fibonacci (Z_range 0 94) = map fibonacci_exact (Z_range 0 94)
  /\ fibonacci_exact 93 < UINT64_MOD <= fibonacci_exact 94
  /\ length (cache cache_state_start) = 94%nat
  /\ cache_init (cache cache_state_start) = Done fib_table
  /\ length (cache (fst (fib_cache_convert st miles))) = 94%nat
  /\ snd (fib_cache_convert st miles) <> Undefined OutOfBounds.
Proof.
  intros Hst.
  split; [vm_compute; reflexivity|].
  split; [vm_compute; reflexivity|].
  split; [split; [vm_compute; reflexivity|vm_compute; discriminate]|].
  split; [vm_compute; reflexivity|].
  split; [apply cache_init_start|].
  rewrite fib_cache_convert_reachable by assumption.
  split; [vm_compute; reflexivity|apply cache_convert_in_bounds].
Qed.

Lemma fibonacci_93_no_overflow_witness :
  fibonacci 93 = 12200160415121876738
  /\ map fibonacci (Z_range 0 94) = map fibonacci_exact (Z_range 0 94)
  /\ fibonacci_exact 93 < UINT64_MOD <= fibonacci_exact 94
  /\ length (cache cache_state_start) = 94%nat
  /\ cache_init (cache cache_state_start) = Done fib_table
  /\ length (cache (fst (fib_cache_convert cache_state_start f_1e19))) = 94%nat
  /\ snd (fib_cache_convert cache_state_start f_1e19) <> Undefined OutOfBounds.
Proof. apply (fibonacci_93_no_overflow cache_state_start f_1e19). apply reach_start. Defined.

Lemma first_fail_ge_6 k miles :
  (4 <= k)%nat -> F32.leb f_5 miles = true -> 6 <= first_fail k miles 2.
Proof.
  intros Hk H5. pose proof (first_fail_range k miles 2) as Hr.
  destruct (Z.le_gt_cases 6 (first_fail k miles 2)) as [|Hlt]; [assumption|].
  pose proof (first_fail_fails k miles 2 ltac:(lia)) as Hf.
  rewrite (passes_of_ge_5 miles _ H5) in Hf by lia. discriminate.
Qed.

Lemma walk_at_denominator n :
  4 <= n <= 91 ->
  good_denominator (curr_mile (walk_at n) - prev_mile (walk_at n)) = true.
Proof.
  intros Hn.
  apply (Z_range_forallb
           (fun n => good_denominator (curr_mile (walk_at n) - prev_mile (walk_at n))) 4 88);
    [vm_compute; reflexivity | lia].
Qed.

Lemma table_denominator i :
  6 <= i <= 91 -> good_denominator (fibonacci i - fibonacci (i - 1)) = true.
Proof.
  intros Hi.
  apply (Z_range_forallb
           (fun i => good_denominator (fibonacci i - fibonacci (i - 1))) 6 86);
    [vm_compute; reflexivity | lia].
Qed.

(** C9. For every [miles >= 5.0f], the denominator of the interpolation
    is an integer that is at least 3, is not changed by the [uint64_t]
    subtraction, and converts to a positive finite [float]: in
    [fib_interpolate] it is [curr_mile - prev_mile] at the end of the
    walk, in [fib_cache_convert] it is [cache[i] - cache[i-1]] whenever
    the search stops inside the table. *)
Theorem interpolation_denominator_positive miles :
  F32.leb f_5 miles = true ->
  (exists w, interpolate_walk WALK_FUEL miles walk_start = Some w
             /\ 3 <= curr_mile w - prev_mile w
             /\ wrap64 (curr_mile w - prev_mile w) = curr_mile w - prev_mile w
             /\ is_pos_finite (F32.of_Z (wrap64 (curr_mile w - prev_mile w))) = true)
  /\ (exists i, cache_search (Z.to_nat (MAX_CACHE - 2 - 2)) fib_table miles 2 = Done i
                /\ (i < MAX_CACHE - 2 ->
                    exists Fn Fn1,
                      array_get fib_table (i - 1) = Done Fn
                      /\ array_get fib_table i = Done Fn1
                      /\ 3 <= Fn1 - Fn
                      /\ wrap64 (Fn1 - Fn) = Fn1 - Fn
                      /\ is_pos_finite (F32.of_Z (wrap64 (Fn1 - Fn))) = true)).
Proof.
  intros H5. split.
  - exists (walk_at (first_fail 91 miles 2 - 2)).
    split; [apply interpolate_walk_spec|].
    pose proof (first_fail_ge_6 91 miles ltac:(lia) H5).
    pose proof (first_fail_range 91 miles 2).
    pose proof (walk_at_denominator (first_fail 91 miles 2 - 2) ltac:(lia)) as Hd.
    unfold good_denominator in Hd. apply andb_prop in Hd as [Hd H3].
    apply andb_prop in Hd as [H1 H2].
    apply Z.leb_le in H1. apply Z.eqb_eq in H2. auto.
  - exists (first_fail 90 miles 2).
    split; [apply (cache_search_at miles 90 2); lia|].
    intros Hlt. change (MAX_CACHE - 2) with 92 in Hlt.
    pose proof (first_fail_ge_6 90 miles ltac:(lia) H5).
    exists (fibonacci (first_fail 90 miles 2 - 1)), (fibonacci (first_fail 90 miles 2)).
    rewrite !fib_table_get by (unfold MAX_CACHE; lia).
    pose proof (table_denominator (first_fail 90 miles 2) ltac:(lia)) as Hd.
    unfold good_denominator in Hd. apply andb_prop in Hd as [Hd H3].
    apply andb_prop in Hd as [H1 H2].
    apply Z.leb_le in H1. apply Z.eqb_eq in H2. auto.
Qed.

Lemma interpolation_denominator_positive_witness :
  (exists w, interpolate_walk WALK_FUEL (F32.of_Z 10) walk_start = Some w
             /\ 3 <= curr_mile w - prev_mile w
             /\ wrap64 (curr_mile w - prev_mile w) = curr_mile w - prev_mile w
             /\ is_pos_finite (F32.of_Z (wrap64 (curr_mile w - prev_mile w))) = true)
  /\ (exists i, cache_search (Z.to_nat (MAX_CACHE - 2 - 2)) fib_table (F32.of_Z 10) 2 = Done i
                /\ (i < MAX_CACHE - 2 ->
                    exists Fn Fn1,
                      array_get fib_table (i - 1) = Done Fn
                      /\ array_get fib_table i = Done Fn1
                      /\ 3 <= Fn1 - Fn
                      /\ wrap64 (Fn1 - Fn) = Fn1 - Fn
                      /\ is_pos_finite (F32.of_Z (wrap64 (Fn1 - Fn))) = true)).
Proof.
  apply (interpolation_denominator_positive (F32.of_Z 10)). vm_compute. reflexivity.
Defined.

(** ** Rounding: what [binary_round] computes, and its monotonicity *)

Lemma digits2_pos_log2 m : Z.pos (digits2_pos m) = Z.log2 (Z.pos m) + 1.
Proof.
  induction m as [m IH|m IH|]; cbn [digits2_pos]; rewrite ?Pos2Z.inj_succ, ?IH.
  - rewrite Pos2Z.inj_xI, (Z.log2_succ_double (Z.pos m)) by lia. lia.
  - rewrite Pos2Z.inj_xO, (Z.log2_double (Z.pos m)) by lia. lia.
  - reflexivity.
Qed.

Lemma iter_pos_nat {A} (f : A -> A) p x :
  SpecFloat.iter_pos f p x = Nat.iter (Pos.to_nat p) f x.
Proof.
  revert x; induction p as [p IH|p IH|]; intros x; cbn [SpecFloat.iter_pos].
  - rewrite !IH, Pos2Nat.inj_xI.
    replace (S (2 * Pos.to_nat p)) with (Pos.to_nat p + S (Pos.to_nat p))%nat by lia.
    rewrite Nat.iter_add, Nat.iter_succ_r. reflexivity.
  - rewrite !IH, Pos2Nat.inj_xO.
    replace (2 * Pos.to_nat p)%nat with (Pos.to_nat p + Pos.to_nat p)%nat by lia.
    rewrite Nat.iter_add. reflexivity.
  - reflexivity.
Qed.

Lemma pos_iter_xO m d : Z.pos (Pos.iter xO m d) = Z.pos m * 2 ^ Z.pos d.
Proof.
  induction d as [|d IH] using Pos.peano_ind.
  - cbn [Pos.iter]. rewrite Pos2Z.inj_xO. change (2 ^ 1) with 2. lia.
  - rewrite Pos.iter_succ, Pos2Z.inj_xO, IH, Pos2Z.inj_succ, Z.pow_succ_r by lia. lia.
Qed.

(** one step *)
Lemma shr_1_spec m r s :
  0 <= m ->
  shr_1 (Build_shr_record m r s) = Build_shr_record (m / 2) (Z.odd m) (r || s).
Proof.
  intros Hm. destruct m as [|p|p]; [reflexivity| |lia].
  destruct p as [p|p|]; cbn [shr_1].
  - f_equal. rewrite Pos2Z.inj_xI. apply Z.div_unique with 1; lia.
  - f_equal. rewrite Pos2Z.inj_xO. apply Z.div_unique with 0; lia.
  - reflexivity.
Qed.

Lemma shr_iter_spec m k :
  0 <= m -> (0 < k)%nat ->
  Nat.iter k shr_1 (Build_shr_record m false false)
  = Build_shr_record (m / 2 ^ Z.of_nat k)
      (2 ^ (Z.of_nat k - 1) <=? m mod 2 ^ Z.of_nat k)
      (negb (m mod 2 ^ (Z.of_nat k - 1) =? 0)).
Proof.
  intros Hm Hk. destruct k as [|k]; [lia|]. clear Hk.
  induction k as [|k IH].
  - cbn [Nat.iter]. rewrite shr_1_spec by assumption. 
    change (Z.of_nat 1) with 1. change (2 ^ 1) with 2. change (2 ^ (1 - 1)) with 1.
    rewrite Z.mod_1_r. cbn [orb negb Z.eqb]. f_equal.
    rewrite Zodd_mod. destruct (Z.eqb_spec (m mod 2) 1), (Z.leb_spec 1 (m mod 2)); try reflexivity; 
      pose proof (Z.mod_pos_bound m 2); lia.
  - rewrite Nat.iter_succ, IH.
    assert (Hp : 0 < 2 ^ Z.of_nat (S k)) by (apply Z.pow_pos_nonneg; lia).
    rewrite shr_1_spec by (apply Z.div_pos; lia).
    set (K := Z.of_nat (S k)) in *.
    replace (Z.of_nat (S (S k))) with (K + 1) by lia.
    replace (K + 1 - 1) with K by lia.
    assert (HK : 1 <= K) by lia.
    assert (E2 : 2 ^ (K + 1) = 2 ^ K * 2) by (rewrite Z.pow_add_r by lia; reflexivity).
    assert (E1 : 2 ^ K = 2 ^ (K - 1) * 2).
    { replace K with (K - 1 + 1) at 1 by lia. rewrite Z.pow_add_r by lia. reflexivity. }
    assert (Hp1 : 0 < 2 ^ (K - 1)) by (apply Z.pow_pos_nonneg; lia).
    f_equal.
    + rewrite E2, Z.div_div by lia. reflexivity.
    + rewrite E2, Z.rem_mul_r by lia.
      rewrite Zodd_mod.
      pose proof (Z.mod_pos_bound m (2 ^ K) Hp).
      pose proof (Z.mod_pos_bound (m / 2 ^ K) 2 ltac:(lia)) as Hb.
      set (b := (m / 2 ^ K) mod 2) in *.
      assert (Hb' : b = 0 \/ b = 1) by lia.
      destruct Hb' as [-> | ->]; rewrite ?Z.mul_0_r, ?Z.mul_1_r, ?Z.add_0_r.
      * destruct (Z.leb_spec (2 ^ K) (m mod 2 ^ K)); [lia|reflexivity].
      * destruct (Z.leb_spec (2 ^ K) (m mod 2 ^ K + 2 ^ K)); [reflexivity|lia].
    + rewrite E1 at 1 2. rewrite Z.rem_mul_r by lia.
      pose proof (Z.mod_pos_bound m (2 ^ (K - 1)) Hp1).
      pose proof (Z.mod_pos_bound (m / 2 ^ (K - 1)) 2 ltac:(lia)) as Hb.
      set (b := (m / 2 ^ (K - 1)) mod 2) in *.
      set (u := m mod 2 ^ (K - 1)) in *.
      assert (Hb' : b = 0 \/ b = 1) by lia.
      destruct Hb' as [-> | ->]; rewrite ?Z.mul_0_r, ?Z.mul_1_r, ?Z.add_0_r.
      * destruct (Z.leb_spec (2 ^ (K - 1)) u); [lia|]. reflexivity.
      * destruct (Z.leb_spec (2 ^ (K - 1)) (u + 2 ^ (K - 1))); [|lia].
        destruct (Z.eqb_spec (u + 2 ^ (K - 1)) 0); [lia|]. reflexivity.
Qed.

Lemma Zdigits2_log2 m : 0 < m -> Zdigits2 m = Z.log2 m + 1.
Proof. destruct m; try lia. intros _. apply digits2_pos_log2. Qed.

Lemma shr_fexp_exact prec emax m e :
  0 <= m ->
  shr_fexp prec emax m e loc_Exact =
  let k := fexp prec emax (Zdigits2 m + e) - e in
  if 0 <? k
  then (Build_shr_record (m / 2 ^ k) (2 ^ (k - 1) <=? m mod 2 ^ k)
          (negb (m mod 2 ^ (k - 1) =? 0)), e + k)
  else (Build_shr_record m false false, e).
Proof.
  intros Hm. unfold shr_fexp. cbv zeta. cbn [shr_record_of_loc].
  destruct (fexp prec emax (Zdigits2 m + e) - e) as [|p|p] eqn:E; cbn [shr Z.ltb Z.compare];
    try reflexivity.
  rewrite iter_pos_nat, shr_iter_spec by lia. rewrite positive_nat_Z. reflexivity.
Qed.

Lemma rne_of_location n k :
  0 <= n -> 0 < k ->
  round_nearest_even (n / 2 ^ k)
    (loc_of_shr_record
       (Build_shr_record (n / 2 ^ k) (2 ^ (k - 1) <=? n mod 2 ^ k)
          (negb (n mod 2 ^ (k - 1) =? 0))))
  = rne n k.
Proof.
  intros Hn Hk. unfold rne. cbv zeta.
  assert (Hp1 : 0 < 2 ^ (k - 1)) by (apply Z.pow_pos_nonneg; lia).
  assert (E1 : 2 ^ k = 2 ^ (k - 1) * 2).
  { replace k with (k - 1 + 1) at 1 by lia. rewrite Z.pow_add_r by lia. reflexivity. }
  pose proof (Z.mod_pos_bound n (2 ^ k) ltac:(lia)) as Hr.
  assert (Hu : n mod 2 ^ (k - 1) = (n mod 2 ^ k) mod 2 ^ (k - 1)).
  { symmetry. apply Z.mod_mod_divide. exists 2. lia. }
  rewrite Hu. set (r := n mod 2 ^ k) in *. set (q := n / 2 ^ k).
  pose proof (Z.mod_pos_bound r (2 ^ (k - 1)) Hp1) as Hu'.
  pose proof (Z.div_mod r (2 ^ (k - 1)) ltac:(lia)) as Hdm.
  set (P := 2 ^ (k - 1)) in *. set (t := r / P) in *.
  assert (Ht : 0 <= t < 2).
  { split; [apply Z.div_pos; lia|]. apply Z.div_lt_upper_bound; lia. }
  destruct (Z.leb_spec P r) as [Hge|Hlt];
    destruct (Z.eqb_spec (r mod P) 0) as [Hz|Hnz];
    cbn [loc_of_shr_record negb round_nearest_even].
  - (* tie *)
    assert (r = P) by (assert (t = 0 \/ t = 1) as [Ht'|Ht'] by lia; rewrite Ht' in Hdm; lia).
    destruct (Z.ltb_spec (2 ^ k) (2 * r)); [lia|].
    destruct (Z.eqb_spec (2 ^ k) (2 * r)); [|lia]. cbn [orb andb].
    rewrite <- Z.negb_even. destruct (Z.even q); reflexivity.
  - assert (P < r) by (assert (t = 0 \/ t = 1) as [Ht'|Ht'] by lia; rewrite Ht' in Hdm; lia).
    destruct (Z.ltb_spec (2 ^ k) (2 * r)); [|lia]. reflexivity.
  - destruct (Z.ltb_spec (2 ^ k) (2 * r)); [lia|].
    destruct (Z.eqb_spec (2 ^ k) (2 * r)); [lia|]. reflexivity.
  - destruct (Z.ltb_spec (2 ^ k) (2 * r)); [lia|].
    destruct (Z.eqb_spec (2 ^ k) (2 * r)); [lia|]. reflexivity.
Qed.

Lemma rne_bounds n k : 0 <= n -> n / 2 ^ k <= rne n k <= n / 2 ^ k + 1.
Proof.
  intros Hn. unfold rne. cbv zeta.
  destruct ((2 ^ k <? 2 * (n mod 2 ^ k)) || ((2 ^ k =? 2 * (n mod 2 ^ k)) && Z.odd (n / 2 ^ k))); lia.
Qed.

Lemma fexp_ge_emin prec emax x : emin prec emax <= fexp prec emax x.
Proof. unfold fexp. lia. Qed.

Lemma fexp_ge prec emax x : x - prec <= fexp prec emax x.
Proof. unfold fexp. lia. Qed.

Section Round.
Variables prec emax : Z.
Hypothesis Hprec : 0 < prec.

Lemma div_pow2_digits m k :
  0 < m -> 0 < k -> Z.log2 m + 1 - k <= prec -> m / 2 ^ k < 2 ^ prec.
Proof.
  intros Hm Hk Hd.
  pose proof (Z.log2_spec m Hm) as [_ Hlt].
  assert (0 < 2 ^ k) by (apply Z.pow_pos_nonneg; lia).
  apply Z.div_lt_upper_bound; [lia|].
  rewrite <- Z.pow_add_r by lia.
  eapply Z.lt_le_trans; [exact Hlt|].
  apply Z.pow_le_mono_r; lia.
Qed.

Lemma binary_round_aux_spec s m e :
  e <= fexp prec emax (Z.log2 (Z.pos m) + 1 + e) ->
  binary_round_aux prec emax s (Z.pos m) e loc_Exact
  = mk_float prec emax s (round_mant_exp prec emax (Z.pos m) e).
Proof.
  intros Hfe. unfold binary_round_aux, round_mant_exp.
  rewrite shr_fexp_exact by lia. rewrite Zdigits2_log2 by lia.
  set (fe := fexp prec emax (Z.log2 (Z.pos m) + 1 + e)) in *. cbv zeta.
  pose proof (fexp_ge_emin prec emax (Z.log2 (Z.pos m) + 1 + e)) as Hemin.
  pose proof (fexp_ge prec emax (Z.log2 (Z.pos m) + 1 + e)) as Hge. fold fe in Hemin, Hge.
  destruct (Z.ltb_spec 0 (fe - e)) as [Hk|Hk].
  - destruct (Z.leb_spec fe e); [lia|].
    cbn [shr_m]. rewrite rne_of_location by lia.
    pose proof (rne_bounds (Z.pos m) (fe - e) ltac:(lia)) as Hq.
    pose proof (div_pow2_digits (Z.pos m) (fe - e) ltac:(lia) Hk ltac:(lia)) as Hlt.
    assert (H0 : 0 <= Z.pos m / 2 ^ (fe - e)) by (apply Z.div_pos; [lia|apply Z.pow_pos_nonneg; lia]).
    set (q := rne (Z.pos m) (fe - e)) in *.
    replace (e + (fe - e)) with fe by lia.
    rewrite shr_fexp_exact by lia.
    destruct (Z.eqb_spec q (2 ^ prec)) as [Eq|Nq].
    + (* carry *)
      rewrite Zdigits2_log2 by (rewrite Eq; apply Z.pow_pos_nonneg; lia).
      rewrite Eq, Z.log2_pow2 by lia.
      assert (Ef : fexp prec emax (prec + 1 + fe) = fe + 1) by (unfold fexp; lia).
      rewrite Ef. replace (fe + 1 - fe) with 1 by lia. cbv zeta.
      cbn [Z.ltb Z.compare shr_m]. change (2 ^ 1) with 2.
      replace (2 ^ prec / 2) with (2 ^ (prec - 1)).
      2:{ replace prec with (prec - 1 + 1) at 2 by lia.
          rewrite Z.pow_add_r by lia. change (2 ^ 1) with 2.
          rewrite Z.div_mul by lia. reflexivity. }
      unfold mk_float. cbn [fst snd]. reflexivity.
    + destruct (Z.eq_dec q 0) as [E0|N0].
      * rewrite E0. cbn [Zdigits2]. cbv zeta.
        assert (Ef : fexp prec emax (0 + fe) - fe <= 0) by (unfold fexp in *; lia).
        destruct (Z.ltb_spec 0 (fexp prec emax (0 + fe) - fe)); [lia|].
        unfold mk_float. cbn [fst snd shr_m]. reflexivity.
      * assert (Hq0 : 0 < q) by lia.
        rewrite Zdigits2_log2 by lia. cbv zeta.
        assert (Hl : Z.log2 q < prec) by (apply Z.log2_lt_pow2; lia).
        assert (Ef : fexp prec emax (Z.log2 q + 1 + fe) - fe <= 0) by (unfold fexp in *; lia).
        destruct (Z.ltb_spec 0 (fexp prec emax (Z.log2 q + 1 + fe) - fe)); [lia|].
        unfold mk_float. cbn [fst snd shr_m]. reflexivity.
  - assert (fe = e) by lia.
    destruct (Z.leb_spec fe e); [|lia].
    cbn [shr_m loc_of_shr_record round_nearest_even].
    rewrite shr_fexp_exact by lia. rewrite Zdigits2_log2 by lia. fold fe. cbv zeta.
    destruct (Z.ltb_spec 0 (fe - e)); [lia|].
    unfold mk_float. cbn [fst snd shr_m].
    replace (e - fe) with 0 by lia. rewrite Z.pow_0_r, Z.mul_1_r. subst fe. 
    replace (fexp prec emax (Z.log2 (Z.pos m) + 1 + e)) with e by lia. reflexivity.
Qed.

End Round.

Section Round2.
Variables prec emax : Z.
Hypothesis Hprec : 0 < prec.

Lemma shl_align_spec m e e' :
  shl_align m e e' =
  if e' <? e then (Z.to_pos (Z.pos m * 2 ^ (e - e')), e') else (m, e).
Proof.
  unfold shl_align. destruct (Z.ltb_spec e' e) as [H|H].
  - destruct (e' - e) as [|p|p] eqn:E; try lia.
    f_equal. replace (e - e') with (Z.pos p) by lia.
    rewrite <- pos_iter_xO. reflexivity.
  - destruct (e' - e) as [|p|p] eqn:E; try lia; reflexivity.
Qed.

Lemma binary_round_spec s m e :
  binary_round prec emax s m e = mk_float prec emax s (round_mant_exp prec emax (Z.pos m) e).
Proof.
  unfold binary_round. rewrite shl_align_spec, digits2_pos_log2.
  set (fe := fexp prec emax (Z.log2 (Z.pos m) + 1 + e)).
  destruct (Z.ltb_spec fe e) as [H|H].
  - assert (Hp : 0 < 2 ^ (e - fe)) by (apply Z.pow_pos_nonneg; lia).
    assert (Hm : 0 < Z.pos m * 2 ^ (e - fe)) by lia.
    assert (El : Z.log2 (Z.pos m * 2 ^ (e - fe)) = Z.log2 (Z.pos m) + (e - fe)).
    { rewrite Z.log2_mul_pow2 by lia. lia. }
    assert (Ef : fexp prec emax (Z.log2 (Z.pos m * 2 ^ (e - fe)) + 1 + fe) = fe).
    { rewrite El. replace (Z.log2 (Z.pos m) + (e - fe) + 1 + fe)
        with (Z.log2 (Z.pos m) + 1 + e) by lia. reflexivity. }
    rewrite binary_round_aux_spec by (rewrite ?Z2Pos.id by lia; try assumption; lia).
    rewrite Z2Pos.id by lia. f_equal.
    unfold round_mant_exp. cbv zeta. rewrite Ef. fold fe.
    destruct (Z.leb_spec fe fe); [|lia]. destruct (Z.leb_spec fe e); [|lia].
    rewrite Z.sub_diag, Z.pow_0_r, Z.mul_1_r. reflexivity.
  - apply binary_round_aux_spec; [assumption|]. fold fe. lia.
Qed.

End Round2.

Lemma rne_0 n : rne n 0 = n.
Proof.
  unfold rne. cbv zeta. rewrite Z.pow_0_r, Z.div_1_r, Z.mod_1_r. reflexivity.
Qed.

Lemma rne_mono n1 n2 k : 0 <= k -> n1 <= n2 -> rne n1 k <= rne n2 k.
Proof.
  intros Hk Hn. unfold rne. cbv zeta.
  assert (HP : 0 < 2 ^ k) by (apply Z.pow_pos_nonneg; lia).
  pose proof (Z.div_mod n1 (2 ^ k) ltac:(lia)) as E1.
  pose proof (Z.div_mod n2 (2 ^ k) ltac:(lia)) as E2.
  pose proof (Z.mod_pos_bound n1 (2 ^ k) HP) as B1.
  pose proof (Z.mod_pos_bound n2 (2 ^ k) HP) as B2.
  pose proof (Z.div_le_mono n1 n2 (2 ^ k) HP Hn) as Hq.
  set (P := 2 ^ k) in *. set (q1 := n1 / P) in *. set (q2 := n2 / P) in *.
  set (r1 := n1 mod P) in *. set (r2 := n2 mod P) in *.
  destruct (Z.eq_dec q1 q2) as [Eq|Nq].
  - assert (r1 <= r2) by nia. rewrite <- Eq.
    destruct (Z.ltb_spec P (2 * r1)), (Z.ltb_spec P (2 * r2)),
      (Z.eqb_spec P (2 * r1)), (Z.eqb_spec P (2 * r2)), (Z.odd q1);
      cbn [orb andb]; lia.
  - destruct ((P <? 2 * r1) || ((P =? 2 * r1) && Z.odd q1)),
      ((P <? 2 * r2) || ((P =? 2 * r2) && Z.odd q2)); lia.
Qed.

Lemma rne_exact c k : 0 <= k -> rne (c * 2 ^ k) k = c.
Proof.
  intros Hk. unfold rne. cbv zeta.
  assert (HP : 0 < 2 ^ k) by (apply Z.pow_pos_nonneg; lia).
  rewrite Z.div_mul, Z.mod_mul by lia.
  destruct (Z.ltb_spec (2 ^ k) (2 * 0)); [lia|].
  destruct (Z.eqb_spec (2 ^ k) (2 * 0)); [lia|]. reflexivity.
Qed.

Lemma rne_le_multiple n c k : 0 <= k -> n <= c * 2 ^ k -> rne n k <= c.
Proof. intros Hk H. rewrite <- (rne_exact c k Hk). apply rne_mono; assumption. Qed.

Lemma rne_ge_multiple n c k : 0 <= k -> c * 2 ^ k <= n -> c <= rne n k.
Proof. intros Hk H. rewrite <- (rne_exact c k Hk). apply rne_mono; assumption. Qed.

Lemma rne_shift n j k : 0 <= j -> 0 <= k -> rne (n * 2 ^ j) (k + j) = rne n k.
Proof.
  intros Hj Hk. unfold rne. cbv zeta.
  assert (HP : 0 < 2 ^ k) by (apply Z.pow_pos_nonneg; lia).
  assert (HJ : 0 < 2 ^ j) by (apply Z.pow_pos_nonneg; lia).
  rewrite Z.pow_add_r by lia.
  rewrite Z.div_mul_cancel_r by lia.
  rewrite Z.mul_mod_distr_r by lia.
  set (P := 2 ^ k) in *. set (J := 2 ^ j) in *.
  set (r := n mod P). set (q := n / P).
  replace (P * J <? 2 * (r * J)) with (P <? 2 * r).
  2:{ destruct (Z.ltb_spec P (2 * r)), (Z.ltb_spec (P * J) (2 * (r * J))); try reflexivity; nia. }
  replace (P * J =? 2 * (r * J)) with (P =? 2 * r).
  2:{ destruct (Z.eqb_spec P (2 * r)), (Z.eqb_spec (P * J) (2 * (r * J))); try reflexivity; nia. }
  reflexivity.
Qed.

Section Order.
Variables prec emax : Z.
Hypothesis Hprec : 0 < prec.
Hypothesis Hemax : prec < emax.

Local Abbreviation fexp := (SpecFloat.fexp prec emax).
Local Abbreviation emin := (SpecFloat.emin prec emax).
Local Abbreviation round_me := (round_mant_exp prec emax).
Local Abbreviation canonical := (canonical_mant prec emax).

(** With an exponent at or below [emin] the rounding is always a right
    shift (possibly by nothing). *)
Lemma round_me_low n e :
  0 < n -> e <= emin ->
  round_me n e =
  let fe := fexp (Z.log2 n + 1 + e) in
  let q := rne n (fe - e) in
  if q =? 2 ^ prec then (2 ^ (prec - 1), fe + 1) else (q, fe).
Proof.
  intros Hn He. unfold round_mant_exp. cbv zeta.
  pose proof (fexp_ge_emin prec emax (Z.log2 n + 1 + e)) as H1.
  set (fe := fexp (Z.log2 n + 1 + e)) in *.
  destruct (Z.leb_spec fe e) as [H|H]; [|reflexivity].
  assert (fe = e) by lia. replace (fe - e) with 0 by lia. replace (e - fe) with 0 by lia.
  rewrite rne_0, Z.pow_0_r, Z.mul_1_r.
  assert (Z.log2 n < prec) by (unfold fe, SpecFloat.fexp in *; lia).
  assert (n < 2 ^ prec) by (apply Z.log2_lt_pow2; lia).
  destruct (Z.eqb_spec n (2 ^ prec)); [lia|reflexivity].
Qed.

Lemma round_me_shift n e j :
  0 < n -> 0 <= j -> round_me (n * 2 ^ j) (e - j) = round_me n e.
Proof.
  intros Hn Hj. unfold round_mant_exp. cbv zeta.
  assert (HJ : 0 < 2 ^ j) by (apply Z.pow_pos_nonneg; lia).
  rewrite Z.log2_mul_pow2 by lia.
  replace (j + Z.log2 n + 1 + (e - j)) with (Z.log2 n + 1 + e) by lia.
  pose proof (fexp_ge prec emax (Z.log2 n + 1 + e)) as Hge.
  set (fe := fexp (Z.log2 n + 1 + e)) in *.
  destruct (Z.leb_spec fe (e - j)) as [H1|H1].
  - destruct (Z.leb_spec fe e); [|lia]. f_equal.
    rewrite <- Z.mul_assoc, <- Z.pow_add_r by lia. f_equal. f_equal. lia.
  - destruct (Z.leb_spec fe e) as [H2|H2].
    + (* the shift undoes part of the scaling: exact *)
      replace (n * 2 ^ j) with (n * 2 ^ (e - fe) * 2 ^ (fe - (e - j))).
      2:{ rewrite <- Z.mul_assoc, <- Z.pow_add_r by lia. f_equal. f_equal. lia. }
      rewrite rne_exact by lia.
      assert (Hp : 0 < 2 ^ (e - fe)) by (apply Z.pow_pos_nonneg; lia).
      assert (Z.log2 (n * 2 ^ (e - fe)) < prec).
      { rewrite Z.log2_mul_pow2 by lia. lia. }
      assert (n * 2 ^ (e - fe) < 2 ^ prec) by (apply Z.log2_lt_pow2; lia).
      destruct (Z.eqb_spec (n * 2 ^ (e - fe)) (2 ^ prec)); [lia|reflexivity].
    + replace (fe - (e - j)) with (fe - e + j) by lia.
      rewrite rne_shift by lia. reflexivity.
Qed.

Lemma round_me_canonical n e :
  0 < n ->
  let me := round_me n e in
  (fst me = 0 \/ canonical (fst me) (snd me)) /\ 0 <= fst me /\ emin <= snd me.
Proof.
  intros Hn. unfold round_mant_exp, canonical_mant. cbv zeta.
  pose proof (fexp_ge_emin prec emax (Z.log2 n + 1 + e)) as Hmin.
  pose proof (fexp_ge prec emax (Z.log2 n + 1 + e)) as Hge.
  pose proof (Z.log2_spec n Hn) as [Hlo Hhi].
  set (d := Z.log2 n + 1) in *. replace (Z.succ (Z.log2 n)) with d in Hhi by lia.
  set (fe := fexp (d + e)) in *.
  destruct (Z.leb_spec fe e) as [H|H]; cbn [fst snd].
  - assert (Hp : 0 < 2 ^ (e - fe)) by (apply Z.pow_pos_nonneg; lia).
    split; [right; split; [lia|]|split; [lia|assumption]].
    rewrite Z.log2_mul_pow2 by lia.
    replace (e - fe + Z.log2 n + 1 + fe) with (d + e) by lia. reflexivity.
  - pose proof (rne_bounds n (fe - e) ltac:(lia)) as Hq.
    pose proof (div_pow2_digits prec Hprec n (fe - e) Hn ltac:(lia) ltac:(lia)) as Hlt.
    assert (HP : 0 < 2 ^ (fe - e)) by (apply Z.pow_pos_nonneg; lia).
    assert (H0 : 0 <= n / 2 ^ (fe - e)) by (apply Z.div_pos; lia).
    set (q := rne n (fe - e)) in *.
    destruct (Z.eqb_spec q (2 ^ prec)) as [Eq|Nq]; cbn [fst snd].
    + assert (0 < 2 ^ (prec - 1)) by (apply Z.pow_pos_nonneg; lia).
      split; [right; split; [lia|]|split; [lia|lia]].
      rewrite Z.log2_pow2 by lia. unfold SpecFloat.fexp. lia.
    + split; [|split; [lia|assumption]].
      destruct (Z.eq_dec q 0) as [E0|N0]; [left; assumption|right].
      split; [lia|].
      assert (Hl : Z.log2 q < prec) by (apply Z.log2_lt_pow2; lia).
      destruct (Z.eq_dec fe emin) as [Ee|Ne].
      * unfold SpecFloat.fexp. lia.
      * (* normal: the quotient keeps [prec] digits *)
        assert (Efe : fe = d + e - prec) by (unfold fe, SpecFloat.fexp in *; lia).
        assert (Hq2 : 2 ^ (prec - 1) <= q).
        { apply (rne_ge_multiple n (2 ^ (prec - 1)) (fe - e)); [lia|].
          rewrite <- Z.pow_add_r by lia.
          replace (prec - 1 + (fe - e)) with (Z.log2 n) by lia. assumption. }
        assert (prec - 1 <= Z.log2 q) by (apply Z.log2_le_pow2; lia).
        unfold SpecFloat.fexp. lia.
Qed.

End Order.

Lemma SFleb_finite_pos m1 e1 m2 e2 :
  SFleb (S754_finite false m1 e1) (S754_finite false m2 e2) = true
  <-> e1 < e2 \/ (e1 = e2 /\ Z.pos m1 <= Z.pos m2).
Proof.
  unfold SFleb, SFcompare. rewrite Pos.compare_cont_spec. cbn [Pos.switch_Eq].
  destruct (Z.compare_spec e1 e2); [destruct (Pos.compare_spec m1 m2)| |];
    split; intros H'; try reflexivity; try discriminate; lia.
Qed.

Section Order2.
Variables prec emax : Z.
Hypothesis Hprec : 0 < prec.
Hypothesis Hemax : prec < emax.

Local Abbreviation fexp := (SpecFloat.fexp prec emax).
Local Abbreviation emin := (SpecFloat.emin prec emax).
Local Abbreviation round_me := (round_mant_exp prec emax).
Local Abbreviation canonical := (canonical_mant prec emax).

Lemma fexp_mono x y : x <= y -> fexp x <= fexp y.
Proof. unfold SpecFloat.fexp. lia. Qed.

Lemma round_me_val_low n E :
  0 < n -> E <= emin ->
  val E (round_me n E)
  = rne n (fexp (Z.log2 n + 1 + E) - E) * 2 ^ (fexp (Z.log2 n + 1 + E) - E).
Proof.
  intros Hn HE. rewrite round_me_low by assumption. cbv zeta.
  pose proof (fexp_ge_emin prec emax (Z.log2 n + 1 + E)) as Hmin.
  set (fe := fexp (Z.log2 n + 1 + E)) in *.
  destruct (Z.eqb_spec (rne n (fe - E)) (2 ^ prec)) as [Eq|Nq]; unfold val; cbn [fst snd];
    [|reflexivity].
  rewrite Eq. replace (fe + 1 - E) with (1 + (fe - E)) by lia.
  rewrite Z.pow_add_r by lia. change (2 ^ 1) with 2.
  replace prec with (prec - 1 + 1) at 2 by lia. rewrite Z.pow_add_r by lia.
  change (2 ^ 1) with 2. lia.
Qed.

Lemma val_mono_low N1 N2 E :
  0 < N1 -> N1 <= N2 -> E <= emin ->
  val E (round_me N1 E) <= val E (round_me N2 E).
Proof.
  intros H1 H12 HE. rewrite !round_me_val_low by lia.
  pose proof (Z.log2_le_mono N1 N2 H12) as Hd.
  pose proof (fexp_mono (Z.log2 N1 + 1 + E) (Z.log2 N2 + 1 + E) ltac:(lia)) as Hfe.
  pose proof (fexp_ge_emin prec emax (Z.log2 N1 + 1 + E)) as Hmin1.
  pose proof (fexp_ge prec emax (Z.log2 N1 + 1 + E)) as Hge1.
  pose proof (Z.log2_spec N1 H1) as [_ Hhi1].
  pose proof (Z.log2_spec N2 ltac:(lia)) as [Hlo2 _].
  set (fe1 := fexp (Z.log2 N1 + 1 + E)) in *.
  set (fe2 := fexp (Z.log2 N2 + 1 + E)) in *.
  destruct (Z.eq_dec fe1 fe2) as [Ef|Nf].
  - rewrite Ef. apply Z.mul_le_mono_nonneg_r; [apply Z.pow_nonneg; lia|].
    apply rne_mono; lia.
  - assert (E2 : fe2 = Z.log2 N2 + 1 + E - prec) by (unfold fe2, fe1, SpecFloat.fexp in *; lia).
    assert (Hdd : Z.log2 N1 < Z.log2 N2) by lia.
    apply Z.le_trans with (2 ^ Z.log2 N2).
    + (* the smaller value rounds to at most 2^(d2-1) *)
      replace (2 ^ Z.log2 N2) with (2 ^ (Z.log2 N2 - (fe1 - E)) * 2 ^ (fe1 - E)).
      2:{ rewrite <- Z.pow_add_r by lia. f_equal. lia. }
      apply Z.mul_le_mono_nonneg_r; [apply Z.pow_nonneg; lia|].
      apply rne_le_multiple; [lia|].
      rewrite <- Z.pow_add_r by lia.
      replace (Z.log2 N2 - (fe1 - E) + (fe1 - E)) with (Z.log2 N2) by lia.
      apply Z.le_trans with (2 ^ Z.succ (Z.log2 N1)); [lia|].
      apply Z.pow_le_mono_r; lia.
    + replace (2 ^ Z.log2 N2) with (2 ^ (prec - 1) * 2 ^ (fe2 - E)).
      2:{ rewrite <- Z.pow_add_r by lia. f_equal. lia. }
      apply Z.mul_le_mono_nonneg_r; [apply Z.pow_nonneg; lia|].
      apply rne_ge_multiple; [lia|].
      rewrite <- Z.pow_add_r by lia.
      replace (prec - 1 + (fe2 - E)) with (Z.log2 N2) by lia. assumption.
Qed.

Lemma canonical_bounds m e :
  canonical m e ->
  emin <= e /\ m < 2 ^ prec /\ (emin < e -> 2 ^ (prec - 1) <= m).
Proof.
  intros [Hm He].
  pose proof (Z.log2_spec m Hm) as [Hlo Hhi].
  assert (Hl : Z.log2 m < prec) by (unfold SpecFloat.fexp in He; lia).
  split; [unfold SpecFloat.fexp in He; lia|]. split.
  - apply Z.log2_lt_pow2; lia.
  - intros Hn. assert (Z.log2 m = prec - 1) by (unfold SpecFloat.fexp in He; lia).
    replace (prec - 1) with (Z.log2 m) by lia. assumption.
Qed.

Lemma lex_of_val m1 e1 m2 e2 E :
  canonical m1 e1 -> canonical m2 e2 -> E <= e1 -> E <= e2 ->
  m1 * 2 ^ (e1 - E) <= m2 * 2 ^ (e2 - E) ->
  e1 < e2 \/ (e1 = e2 /\ m1 <= m2).
Proof.
  intros C1 C2 H1 H2 Hv.
  destruct (canonical_bounds m1 e1 C1) as (Hm1 & Hu1 & Hn1).
  destruct (canonical_bounds m2 e2 C2) as (Hm2 & Hu2 & Hn2).
  destruct C1 as [P1 _], C2 as [P2 _].
  destruct (Z.lt_trichotomy e1 e2) as [Hlt|[Heq|Hgt]]; [left; assumption| |].
  - right. split; [assumption|]. subst e2.
    assert (0 < 2 ^ (e1 - E)) by (apply Z.pow_pos_nonneg; lia). nia.
  - exfalso. specialize (Hn1 ltac:(lia)).
    assert (HP : 0 < 2 ^ (e2 - E)) by (apply Z.pow_pos_nonneg; lia).
    replace (e1 - E) with (e1 - e2 + (e2 - E)) in Hv by lia.
    rewrite Z.pow_add_r in Hv by lia.
    assert (2 <= 2 ^ (e1 - e2)).
    { change 2 with (2 ^ 1) at 1. apply Z.pow_le_mono_r; lia. }
    assert (2 ^ prec = 2 * 2 ^ (prec - 1)).
    { replace prec with (1 + (prec - 1)) at 1 by lia. rewrite Z.pow_add_r by lia. reflexivity. }
    assert (m2 < m1 * 2 ^ (e1 - e2)) by nia.
    nia.
Qed.

Lemma val_of_lex m1 e1 m2 e2 E :
  canonical m1 e1 -> canonical m2 e2 -> E <= e1 -> E <= e2 ->
  e1 < e2 \/ (e1 = e2 /\ m1 <= m2) ->
  m1 * 2 ^ (e1 - E) <= m2 * 2 ^ (e2 - E).
Proof.
  intros C1 C2 H1 H2 Hl.
  destruct (canonical_bounds m1 e1 C1) as (Hm1 & Hu1 & Hn1).
  destruct (canonical_bounds m2 e2 C2) as (Hm2 & Hu2 & Hn2).
  destruct C1 as [P1 _], C2 as [P2 _].
  destruct Hl as [Hlt|[-> Hle]].
  - specialize (Hn2 ltac:(lia)).
    assert (HP : 0 < 2 ^ (e1 - E)) by (apply Z.pow_pos_nonneg; lia).
    replace (e2 - E) with (e2 - e1 + (e1 - E)) by lia.
    rewrite Z.pow_add_r by lia.
    assert (2 <= 2 ^ (e2 - e1)).
    { change 2 with (2 ^ 1) at 1. apply Z.pow_le_mono_r; lia. }
    assert (2 ^ prec = 2 * 2 ^ (prec - 1)).
    { replace prec with (1 + (prec - 1)) at 1 by lia. rewrite Z.pow_add_r by lia. reflexivity. }
    assert (m1 <= m2 * 2 ^ (e2 - e1)) by nia.
    nia.
  - apply Z.mul_le_mono_nonneg_r; [apply Z.pow_nonneg; lia|assumption].
Qed.

(** The rounding is monotone in the value rounded. *)
Theorem round_le n1 e1 n2 e2 e0 :
  0 < n1 -> 0 < n2 -> e0 <= e1 -> e0 <= e2 ->
  n1 * 2 ^ (e1 - e0) <= n2 * 2 ^ (e2 - e0) ->
  SFleb (mk_float prec emax false (round_me n1 e1))
        (mk_float prec emax false (round_me n2 e2)) = true.
Proof.
  intros P1 P2 H1 H2 Hv.
  set (E := Z.min e0 emin).
  assert (HJ : 0 < 2 ^ (e0 - E)) by (apply Z.pow_pos_nonneg; lia).
  rewrite <- (round_me_shift prec emax Hprec n1 e1 (e1 - E)) by lia.
  rewrite <- (round_me_shift prec emax Hprec n2 e2 (e2 - E)) by lia.
  replace (e1 - (e1 - E)) with E by lia. replace (e2 - (e2 - E)) with E by lia.
  assert (Q1 : 0 < n1 * 2 ^ (e1 - E)) by (apply Z.mul_pos_pos; [lia|apply Z.pow_pos_nonneg; lia]).
  assert (Q2 : 0 < n2 * 2 ^ (e2 - E)) by (apply Z.mul_pos_pos; [lia|apply Z.pow_pos_nonneg; lia]).
  assert (HN : n1 * 2 ^ (e1 - E) <= n2 * 2 ^ (e2 - E)).
  { replace (e1 - E) with (e1 - e0 + (e0 - E)) by lia.
    replace (e2 - E) with (e2 - e0 + (e0 - E)) by lia.
    rewrite !Z.pow_add_r, !Z.mul_assoc by lia.
    apply Z.mul_le_mono_nonneg_r; lia. }
  pose proof (val_mono_low _ _ E Q1 HN ltac:(lia)) as Hval.
  pose proof (round_me_canonical prec emax Hprec _ E Q1) as (C1 & N1 & M1).
  pose proof (round_me_canonical prec emax Hprec _ E Q2) as (C2 & N2 & M2).
  cbv zeta in C1, C2, N1, N2, M1, M2.
  destruct (round_mant_exp prec emax (n1 * 2 ^ (e1 - E)) E) as [m1 x1].
  destruct (round_mant_exp prec emax (n2 * 2 ^ (e2 - E)) E) as [m2 x2].
  unfold val in Hval. cbn [fst snd] in *. unfold mk_float. cbn [fst snd].
  assert (HX1 : 0 < 2 ^ (x1 - E)) by (apply Z.pow_pos_nonneg; lia).
  assert (HX2 : 0 < 2 ^ (x2 - E)) by (apply Z.pow_pos_nonneg; lia).
  destruct C1 as [Z1|C1].
  - subst m1. destruct m2 as [|p2|p2]; [reflexivity| |lia].
    destruct (x2 <=? emax - prec); reflexivity.
  - destruct C2 as [Z2|C2]; [destruct C1 as [C1 _]; subst m2; nia|].
    pose proof (lex_of_val m1 x1 m2 x2 E C1 C2 ltac:(lia) ltac:(lia) Hval) as Hl.
    destruct C1 as [C1 _], C2 as [C2 _].
    destruct m1 as [|p1|p1]; try lia. destruct m2 as [|p2|p2]; try lia.
    destruct (Z.leb_spec x2 (emax - prec)) as [B2|B2].
    + destruct (Z.leb_spec x1 (emax - prec)) as [B1|B1]; [|lia].
      apply SFleb_finite_pos. assumption.
    + destruct (x1 <=? emax - prec); reflexivity.
Qed.

End Order2.

Section Ops.
Variables prec emax : Z.
Hypothesis Hprec : 0 < prec.
Hypothesis Hemax : prec < emax.

Local Abbreviation fexp := (SpecFloat.fexp prec emax).
Local Abbreviation emin := (SpecFloat.emin prec emax).
Local Abbreviation round_me := (round_mant_exp prec emax).
Local Abbreviation canonical := (canonical_mant prec emax).
Local Abbreviation nn := (nonneg_canonical prec emax).
Local Abbreviation bn := (fun n e => binary_normalize prec emax n e false).

Lemma valid_canonical m e :
  valid_binary prec emax (S754_finite false m e) = true -> canonical (Z.pos m) e.
Proof.
  cbn [valid_binary]. unfold bounded, canonical_mantissa.
  intros [H _]%andb_prop. apply Z.eqb_eq in H. rewrite digits2_pos_log2 in H.
  split; [lia|]. symmetry. exact H.
Qed.

Lemma bn_pos n e : 0 < n -> bn n e = mk_float prec emax false (round_me n e).
Proof.
  intros Hn. destruct n as [|p|p]; try lia. cbn [binary_normalize].
  apply binary_round_spec. assumption.
Qed.

Lemma mk_float_nn n e : 0 < n -> nn (mk_float prec emax false (round_me n e)).
Proof.
  intros Hn. pose proof (round_me_canonical prec emax Hprec n e Hn) as (C & N & M).
  cbv zeta in *. destruct (round_mant_exp prec emax n e) as [m x]. unfold mk_float.
  cbn [fst snd] in *. destruct m as [|p|p]; [constructor| |lia].
  destruct C as [C|C]; [lia|].
  destruct (x <=? emax - prec); constructor. assumption.
Qed.

Lemma bn_nn n e : 0 <= n -> nn (bn n e).
Proof.
  intros Hn. destruct (Z.eq_dec n 0) as [->|]; [constructor|].
  rewrite bn_pos by lia. apply mk_float_nn. lia.
Qed.

Lemma SFleb_zero_nn x : nn x -> SFleb (S754_zero false) x = true.
Proof. destruct 1; reflexivity. Qed.

Lemma SFleb_nn_infinity x : nn x -> SFleb x (S754_infinity false) = true.
Proof. destruct 1; reflexivity. Qed.

Theorem bn_le n1 e1 n2 e2 e0 :
  0 <= n1 -> 0 <= n2 -> e0 <= e1 -> e0 <= e2 ->
  n1 * 2 ^ (e1 - e0) <= n2 * 2 ^ (e2 - e0) ->
  SFleb (bn n1 e1) (bn n2 e2) = true.
Proof.
  intros P1 P2 H1 H2 Hv.
  assert (Q1 : 0 < 2 ^ (e1 - e0)) by (apply Z.pow_pos_nonneg; lia).
  assert (Q2 : 0 < 2 ^ (e2 - e0)) by (apply Z.pow_pos_nonneg; lia).
  destruct (Z.eq_dec n1 0) as [->|N1].
  - apply SFleb_zero_nn, bn_nn. assumption.
  - assert (0 < n2) by nia. rewrite !bn_pos by lia.
    apply (round_le prec emax Hprec n1 e1 n2 e2 e0); lia || assumption.
Qed.

Lemma bn_canonical_id m e :
  canonical (Z.pos m) e -> e <= emax - prec -> bn (Z.pos m) e = S754_finite false m e.
Proof.
  intros [_ C] B. rewrite bn_pos by lia. unfold round_mant_exp. cbv zeta.
  rewrite <- C. destruct (Z.leb_spec e e); [|lia].
  rewrite Z.sub_diag, Z.pow_0_r, Z.mul_1_r. unfold mk_float. cbn [fst snd].
  destruct (Z.leb_spec e (emax - prec)); [reflexivity|lia].
Qed.

Lemma shl_align_fst m e e' :
  e' <= e -> Z.pos (fst (shl_align m e e')) = Z.pos m * 2 ^ (e - e').
Proof.
  intros H. rewrite shl_align_spec. destruct (Z.ltb_spec e' e); cbn [fst].
  - rewrite Z2Pos.id; [reflexivity|].
    apply Z.mul_pos_pos; [lia|apply Z.pow_pos_nonneg; lia].
  - replace (e - e') with 0 by lia. lia.
Qed.

Lemma SFsub_pos mx ex my ey :
  SFsub prec emax (S754_finite false mx ex) (S754_finite false my ey)
  = bn (Z.pos mx * 2 ^ (ex - Z.min ex ey) - Z.pos my * 2 ^ (ey - Z.min ex ey)) (Z.min ex ey).
Proof.
  cbn [SFsub cond_Zopp]. cbv zeta. rewrite !shl_align_fst by lia. reflexivity.
Qed.

Lemma SFadd_pos mx ex my ey :
  SFadd prec emax (S754_finite false mx ex) (S754_finite false my ey)
  = bn (Z.pos mx * 2 ^ (ex - Z.min ex ey) + Z.pos my * 2 ^ (ey - Z.min ex ey)) (Z.min ex ey).
Proof.
  cbn [SFadd cond_Zopp]. cbv zeta. rewrite !shl_align_fst by lia. reflexivity.
Qed.

Lemma emin_neg : emin <= 0.
Proof. unfold SpecFloat.emin. lia. Qed.

Lemma SFmul_pos mx ex my ey :
  canonical (Z.pos mx) ex -> canonical (Z.pos my) ey ->
  SFmul prec emax (S754_finite false mx ex) (S754_finite false my ey)
  = bn (Z.pos mx * Z.pos my) (ex + ey).
Proof.
  intros Cx Cy. cbn [SFmul xorb].
  change (Z.pos mx * Z.pos my) with (Z.pos (mx * my)). cbn [binary_normalize].
  rewrite binary_round_spec by assumption.
  apply binary_round_aux_spec; [assumption|].
  destruct (canonical_bounds prec emax Hprec _ _ Cx) as (Ex & Ux & Nx).
  destruct (canonical_bounds prec emax Hprec _ _ Cy) as (Ey & Uy & Ny).
  pose proof emin_neg.
  rewrite Pos2Z.inj_mul.
  destruct (Z.eq_dec ex emin) as [Eqx|Neqx].
  - destruct (Z.eq_dec ey emin) as [Eqy|Neqy].
    + unfold SpecFloat.fexp. lia.
    + specialize (Ny ltac:(lia)).
      assert (prec - 1 <= Z.log2 (Z.pos mx * Z.pos my)).
      { apply Z.log2_le_pow2; [lia|]. nia. }
      unfold SpecFloat.fexp. lia.
  - specialize (Nx ltac:(lia)).
    assert (prec - 1 <= Z.log2 (Z.pos mx * Z.pos my)).
    { apply Z.log2_le_pow2; [lia|]. nia. }
    unfold SpecFloat.fexp. lia.
Qed.

Lemma nn_le_lex m1 e1 m2 e2 E :
  canonical (Z.pos m1) e1 -> canonical (Z.pos m2) e2 ->
  SFleb (S754_finite false m1 e1) (S754_finite false m2 e2) = true ->
  E <= e1 -> E <= e2 ->
  Z.pos m1 * 2 ^ (e1 - E) <= Z.pos m2 * 2 ^ (e2 - E).
Proof.
  intros C1 C2 H H1 H2. apply SFleb_finite_pos in H.
  apply (val_of_lex prec emax Hprec); assumption.
Qed.

(** [x - X] is monotone in [x] above [X]. *)
Lemma SFsub_mono mX eX m1 e1 m2 e2 :
  canonical (Z.pos mX) eX -> canonical (Z.pos m1) e1 -> canonical (Z.pos m2) e2 ->
  SFleb (S754_finite false mX eX) (S754_finite false m1 e1) = true ->
  SFleb (S754_finite false m1 e1) (S754_finite false m2 e2) = true ->
  nn (SFsub prec emax (S754_finite false m1 e1) (S754_finite false mX eX))
  /\ nn (SFsub prec emax (S754_finite false m2 e2) (S754_finite false mX eX))
  /\ SFleb (SFsub prec emax (S754_finite false m1 e1) (S754_finite false mX eX))
           (SFsub prec emax (S754_finite false m2 e2) (S754_finite false mX eX)) = true.
Proof.
  intros CX C1 C2 HX H12. rewrite !SFsub_pos.
  set (E := Z.min (Z.min e1 e2) eX).
  pose proof (nn_le_lex _ _ _ _ E CX C1 HX ltac:(lia) ltac:(lia)) as V1.
  pose proof (nn_le_lex _ _ _ _ E C1 C2 H12 ltac:(lia) ltac:(lia)) as V2.
  assert (S1 : forall m e, E <= Z.min e eX ->
            (Z.pos m * 2 ^ (e - Z.min e eX) - Z.pos mX * 2 ^ (eX - Z.min e eX))
            * 2 ^ (Z.min e eX - E)
            = Z.pos m * 2 ^ (e - E) - Z.pos mX * 2 ^ (eX - E)).
  { intros m e He. rewrite Z.mul_sub_distr_r, <- !Z.mul_assoc, <- !Z.pow_add_r by lia.
    f_equal; f_equal; f_equal; lia. }
  pose proof (S1 m1 e1 ltac:(lia)) as T1. pose proof (S1 m2 e2 ltac:(lia)) as T2.
  assert (P1 : 0 < 2 ^ (Z.min e1 eX - E)) by (apply Z.pow_pos_nonneg; lia).
  assert (P2 : 0 < 2 ^ (Z.min e2 eX - E)) by (apply Z.pow_pos_nonneg; lia).
  assert (N1 : 0 <= Z.pos m1 * 2 ^ (e1 - Z.min e1 eX) - Z.pos mX * 2 ^ (eX - Z.min e1 eX)) by nia.
  assert (N2 : 0 <= Z.pos m2 * 2 ^ (e2 - Z.min e2 eX) - Z.pos mX * 2 ^ (eX - Z.min e2 eX)) by nia.
  split; [apply bn_nn; assumption|]. split; [apply bn_nn; assumption|].
  apply (bn_le _ _ _ _ E); try assumption; try lia.
Qed.

(** [u * R] is monotone in [u >= 0] for a positive [R]. *)
Lemma SFmul_mono u1 u2 mR eR :
  canonical (Z.pos mR) eR -> nn u1 -> nn u2 -> SFleb u1 u2 = true ->
  nn (SFmul prec emax u1 (S754_finite false mR eR))
  /\ nn (SFmul prec emax u2 (S754_finite false mR eR))
  /\ SFleb (SFmul prec emax u1 (S754_finite false mR eR))
           (SFmul prec emax u2 (S754_finite false mR eR)) = true.
Proof.
  intros CR N1 N2 H.
  assert (Hf : forall m e, canonical (Z.pos m) e ->
            nn (SFmul prec emax (S754_finite false m e) (S754_finite false mR eR))).
  { intros m e C. rewrite SFmul_pos by assumption. apply bn_nn. lia. }
  destruct N1 as [|m1 e1 C1|]; destruct N2 as [|m2 e2 C2|]; try discriminate H.
  - repeat split; constructor.
  - split; [constructor|]. split; [apply Hf; assumption|].
    apply SFleb_zero_nn. cbn [SFmul xorb]. apply Hf. assumption.
  - repeat split; constructor.
  - split; [apply Hf; assumption|]. split; [apply Hf; assumption|].
    rewrite !SFmul_pos by assumption.
    set (E := Z.min e1 e2).
    pose proof (nn_le_lex _ _ _ _ E C1 C2 H ltac:(lia) ltac:(lia)) as V.
    apply (bn_le _ _ _ _ (E + eR)); try lia.
    replace (e1 + eR - (E + eR)) with (e1 - E) by lia.
    replace (e2 + eR - (E + eR)) with (e2 - E) by lia. nia.
  - split; [apply Hf; assumption|]. split; [constructor|].
    apply SFleb_nn_infinity. apply Hf. assumption.
  - repeat split; constructor.
Qed.

(** [A + v] is monotone in [v >= 0] for a positive [A]. *)
Lemma SFadd_mono mA eA v1 v2 :
  canonical (Z.pos mA) eA -> eA <= emax - prec -> nn v1 -> nn v2 -> SFleb v1 v2 = true ->
  nn (SFadd prec emax (S754_finite false mA eA) v1)
  /\ nn (SFadd prec emax (S754_finite false mA eA) v2)
  /\ SFleb (SFadd prec emax (S754_finite false mA eA) v1)
           (SFadd prec emax (S754_finite false mA eA) v2) = true.
Proof.
  intros CA BA N1 N2 H.
  assert (Hf : forall m e, nn (SFadd prec emax (S754_finite false mA eA) (S754_finite false m e))).
  { intros m e. rewrite SFadd_pos. apply bn_nn.
    assert (0 < 2 ^ (eA - Z.min eA e)) by (apply Z.pow_pos_nonneg; lia).
    assert (0 < 2 ^ (e - Z.min eA e)) by (apply Z.pow_pos_nonneg; lia). nia. }
  assert (Hs : forall m e E, E <= Z.min eA e ->
            (Z.pos mA * 2 ^ (eA - Z.min eA e) + Z.pos m * 2 ^ (e - Z.min eA e))
            * 2 ^ (Z.min eA e - E)
            = Z.pos mA * 2 ^ (eA - E) + Z.pos m * 2 ^ (e - E)).
  { intros m e E He. rewrite Z.mul_add_distr_r, <- !Z.mul_assoc, <- !Z.pow_add_r by lia.
    f_equal; f_equal; f_equal; lia. }
  assert (Hp : forall m e, 0 <= Z.pos mA * 2 ^ (eA - Z.min eA e) + Z.pos m * 2 ^ (e - Z.min eA e)).
  { intros m e.
    assert (0 < 2 ^ (eA - Z.min eA e)) by (apply Z.pow_pos_nonneg; lia).
    assert (0 < 2 ^ (e - Z.min eA e)) by (apply Z.pow_pos_nonneg; lia). nia. }
  destruct N1 as [|m1 e1 C1|]; destruct N2 as [|m2 e2 C2|]; try discriminate H.
  - cbn [SFadd]. repeat split; try (constructor; assumption).
    apply SFleb_finite_pos. right. split; lia.
  - change (SFadd prec emax (S754_finite false mA eA) (S754_zero false))
      with (S754_finite false mA eA).
    split; [constructor; assumption|]. split; [apply Hf|].
    rewrite SFadd_pos. rewrite <- (bn_canonical_id mA eA CA BA) at 1.
    apply (bn_le _ _ _ _ (Z.min eA e2)); try lia; try apply Hp.
    rewrite Z.sub_diag, Z.pow_0_r, Z.mul_1_r.
    assert (0 < 2 ^ (e2 - Z.min eA e2)) by (apply Z.pow_pos_nonneg; lia). nia.
  - cbn [SFadd]. repeat split; constructor; assumption.
  - split; [apply Hf|]. split; [apply Hf|].
    rewrite !SFadd_pos.
    set (E := Z.min eA (Z.min e1 e2)).
    pose proof (nn_le_lex _ _ _ _ E C1 C2 H ltac:(lia) ltac:(lia)) as V.
    apply (bn_le _ _ _ _ E); try lia; try apply Hp.
    rewrite !Hs by lia. lia.
  - split; [apply Hf|]. split; [constructor|].
    apply SFleb_nn_infinity. apply Hf.
  - repeat split; constructor.
Qed.

End Ops.


(** ** Monotonicity of the converters *)

Lemma F32_prec_pos : 0 < F32.prec.
Proof. reflexivity. Qed.

Lemma F32_prec_emax : F32.prec < F32.emax.
Proof. reflexivity. Qed.

Lemma of_Z_nn z : 0 <= z -> nonneg_canonical F32.prec F32.emax (F32.of_Z z).
Proof. intros Hz. apply (bn_nn F32.prec F32.emax F32_prec_pos); assumption. Qed.

Lemma of_Z_le z1 z2 :
  0 <= z1 <= z2 -> F32.leb (F32.of_Z z1) (F32.of_Z z2) = true.
Proof.
  intros Hz. apply (bn_le F32.prec F32.emax F32_prec_pos F32_prec_emax z1 0 z2 0 0); lia.
Qed.

Lemma pos_valid_inv x :
  pos_valid x = true ->
  exists m e, x = S754_finite false m e
              /\ canonical_mant F32.prec F32.emax (Z.pos m) e
              /\ e <= F32.emax - F32.prec.
Proof.
  destruct x as [| | |[] m e]; try discriminate. intros H. exists m, e.
  split; [reflexivity|]. split.
  - apply valid_canonical. exact H.
  - cbn [pos_valid F32.valid valid_binary] in H. unfold bounded in H.
    apply andb_prop in H as [_ H]. apply Z.leb_le in H. exact H.
Qed.

Lemma basic_miles2km_mono z1 z2 :
  0 <= z1 <= z2 ->
  nonneg_canonical F32.prec F32.emax (basic_miles2km z1)
  /\ nonneg_canonical F32.prec F32.emax (basic_miles2km z2)
  /\ F32.leb (basic_miles2km z1) (basic_miles2km z2) = true.
Proof.
  intros Hz. unfold basic_miles2km.
  destruct (pos_valid_inv f_1_609344 eq_refl) as (m & e & -> & C & _).
  apply (SFmul_mono F32.prec F32.emax F32_prec_pos F32_prec_emax).
  - exact C.
  - apply of_Z_nn; lia.
  - apply of_Z_nn; lia.
  - apply of_Z_le. assumption.
Qed.

(** *** The integral part *)

Lemma trunc_scaled m e E :
  E <= e -> E <= 0 ->
  (if 0 <=? e then Z.pos m * 2 ^ e else Z.pos m / 2 ^ (- e))
  = (Z.pos m * 2 ^ (e - E)) / 2 ^ (- E).
Proof.
  intros H1 H2.
  assert (HP : 0 < 2 ^ (- E)) by (apply Z.pow_pos_nonneg; lia).
  destruct (Z.leb_spec 0 e) as [He|He].
  - replace (e - E) with (e + - E) by lia. rewrite Z.pow_add_r by lia.
    rewrite Z.mul_assoc, Z.div_mul by lia. reflexivity.
  - replace (- E) with (- e + (e - E)) by lia. rewrite Z.pow_add_r by lia.
    assert (0 < 2 ^ (e - E)) by (apply Z.pow_pos_nonneg; lia).
    assert (0 < 2 ^ (- e)) by (apply Z.pow_pos_nonneg; lia).
    rewrite Z.div_mul_cancel_r by lia. reflexivity.
Qed.

(** Strict order of canonical values, as an order of scaled mantissas. *)
Lemma lt_scaled m1 e1 m2 e2 E :
  canonical_mant F32.prec F32.emax (Z.pos m1) e1 ->
  canonical_mant F32.prec F32.emax (Z.pos m2) e2 ->
  F32.ltb (S754_finite false m1 e1) (S754_finite false m2 e2) = true ->
  E <= e1 -> E <= e2 ->
  Z.pos m1 * 2 ^ (e1 - E) < Z.pos m2 * 2 ^ (e2 - E).
Proof.
  intros C1 C2 H H1 H2.
  assert (Hle : Z.pos m1 * 2 ^ (e1 - E) <= Z.pos m2 * 2 ^ (e2 - E)).
  { apply (nn_le_lex F32.prec F32.emax F32_prec_pos); try assumption.
    apply SFltb_leb. exact H. }
  destruct (Z.eq_dec (Z.pos m1 * 2 ^ (e1 - E)) (Z.pos m2 * 2 ^ (e2 - E))) as [Heq|]; [|lia].
  exfalso.
  assert (Hge : SFleb (S754_finite false m2 e2) (S754_finite false m1 e1) = true).
  { apply SFleb_finite_pos.
    apply (lex_of_val F32.prec F32.emax F32_prec_pos _ _ _ _ E); try assumption. lia. }
  apply SFleb_ltb in Hge. unfold F32.ltb in H. congruence.
Qed.

Lemma trunc_mono m1 e1 m2 e2 :
  canonical_mant F32.prec F32.emax (Z.pos m1) e1 ->
  canonical_mant F32.prec F32.emax (Z.pos m2) e2 ->
  F32.leb (S754_finite false m1 e1) (S754_finite false m2 e2) = true ->
  exists z1 z2, trunc (S754_finite false m1 e1) = Some z1
                /\ trunc (S754_finite false m2 e2) = Some z2
                /\ 0 <= z1 <= z2.
Proof.
  intros C1 C2 H. cbn [trunc]. cbv zeta.
  set (E := Z.min 0 (Z.min e1 e2)).
  rewrite (trunc_scaled m1 e1 E), (trunc_scaled m2 e2 E) by lia.
  eexists _, _. split; [reflexivity|]. split; [reflexivity|].
  assert (HP : 0 < 2 ^ (- E)) by (apply Z.pow_pos_nonneg; lia).
  pose proof (nn_le_lex F32.prec F32.emax F32_prec_pos _ _ _ _ E C1 C2 H ltac:(lia) ltac:(lia)).
  split.
  - apply Z.div_pos; [|lia]. apply Z.mul_nonneg_nonneg; [lia|apply Z.pow_nonneg; lia].
  - apply Z.div_le_mono; lia.
Qed.

Lemma trunc_below m e (c : Z) mc ec :
  canonical_mant F32.prec F32.emax (Z.pos m) e ->
  canonical_mant F32.prec F32.emax (Z.pos mc) ec ->
  ec <= 0 -> Z.pos mc = c * 2 ^ (- ec) ->
  F32.ltb (S754_finite false m e) (S754_finite false mc ec) = true ->
  exists z, trunc (S754_finite false m e) = Some z /\ 0 <= z < c.
Proof.
  intros C Cc Hec Hc H. cbn [trunc]. cbv zeta.
  set (E := Z.min 0 (Z.min e ec)).
  rewrite (trunc_scaled m e E) by lia.
  eexists. split; [reflexivity|].
  assert (HP : 0 < 2 ^ (- E)) by (apply Z.pow_pos_nonneg; lia).
  pose proof (lt_scaled _ _ _ _ E C Cc H ltac:(lia) ltac:(lia)) as Hlt.
  split.
  - apply Z.div_pos; [|lia]. apply Z.mul_nonneg_nonneg; [lia|apply Z.pow_nonneg; lia].
  - apply Z.div_lt_upper_bound; [lia|].
    rewrite Hc, <- Z.mul_assoc, <- Z.pow_add_r in Hlt by lia.
    replace (- ec + (ec - E)) with (- E) in Hlt by lia. lia.
Qed.

Lemma piece_ok_all i : 6 <= i <= LAST_PIECE -> piece_ok i = true.
Proof.
  intros Hi. apply (Z_range_forallb piece_ok 6 36); [vm_compute; reflexivity|].
  unfold LAST_PIECE in Hi. lia.
Qed.

Lemma pos_valid_nn x : pos_valid x = true -> nonneg_canonical F32.prec F32.emax x.
Proof.
  intros H. destruct (pos_valid_inv x H) as (m & e & -> & C & _). constructor. exact C.
Qed.

Lemma bracket_mono i y1 y2 :
  piece_ok i = true -> pos_valid y1 = true -> pos_valid y2 = true ->
  F32.leb (F32.of_Z (fibonacci (i - 1))) y1 = true ->
  F32.leb y1 y2 = true ->
  F32.leb (bracket_value i y1) (bracket_value i y2) = true.
Proof.
  intros Hok V1 V2 HX H12. unfold piece_ok in Hok.
  apply andb_prop in Hok as [Hok _]. apply andb_prop in Hok as [Hok _].
  apply andb_prop in Hok as [Hok HR]. apply andb_prop in Hok as [HXv HA].
  unfold bracket_value, interpolation.
  destruct (pos_valid_inv _ HXv) as (mX & eX & EX & CX & _).
  destruct (pos_valid_inv _ HA) as (mA & eA & EA & CA & BA).
  destruct (pos_valid_inv _ HR) as (mR & eR & ER & CR & _).
  destruct (pos_valid_inv _ V1) as (m1 & e1 & -> & C1 & _).
  destruct (pos_valid_inv _ V2) as (m2 & e2 & -> & C2 & _).
  rewrite EX in *. rewrite EA, ER.
  destruct (SFsub_mono F32.prec F32.emax F32_prec_pos F32_prec_emax
              mX eX m1 e1 m2 e2 CX C1 C2 HX H12) as (Ns1 & Ns2 & Hs).
  destruct (SFmul_mono F32.prec F32.emax F32_prec_pos F32_prec_emax
              _ _ mR eR CR Ns1 Ns2 Hs) as (Nm1 & Nm2 & Hm).
  destruct (SFadd_mono F32.prec F32.emax F32_prec_pos F32_prec_emax
              mA eA _ _ CA BA Nm1 Nm2 Hm) as (_ & _ & Ha).
  exact Ha.
Qed.

Lemma first_fail_mono k m1 m2 j :
  (forall i, passes m1 i = true -> passes m2 i = true) ->
  first_fail k m1 j <= first_fail k m2 j.
Proof.
  intros H. revert j. induction k as [|k IH]; intros j; cbn [first_fail]; [lia|].
  destruct (passes m1 j) eqn:E1.
  - rewrite (H j E1). apply IH.
  - destruct (passes m2 j); [|lia].
    pose proof (first_fail_range k m2 (j + 1)). lia.
Qed.

Lemma passes_mono m1 m2 i :
  F32.leb m1 m2 = true -> passes m1 i = true -> passes m2 i = true.
Proof. unfold passes, F32.leb. intros H12 H. eapply SFleb_trans; eassumption. Qed.

(** Where [miles] lies when it is at least 5 and below the bound. *)
Lemma in_bracket miles :
  F32.leb f_5 miles = true -> passes miles LAST_PIECE = false ->
  let i := first_fail 91 miles 2 in
  6 <= i <= LAST_PIECE
  /\ first_fail 90 miles 2 = i
  /\ passes miles (i - 1) = true /\ passes miles i = false
  /\ fib_interpolate miles = Some (Done (bracket_value i miles))
  /\ cache_convert fib_table miles = Done (bracket_value i miles).
Proof.
  intros H5 Hlast. cbv zeta.
  pose proof (first_fail_ge_6 90 miles ltac:(lia) H5) as Hge.
  pose proof (first_fail_le 90 miles 2 LAST_PIECE ltac:(unfold LAST_PIECE; lia) Hlast) as Hle.
  unfold LAST_PIECE in *.
  assert (E : first_fail 91 miles 2 = first_fail 90 miles 2).
  { rewrite first_fail_snoc. cbv zeta.
    destruct (Z.eqb_spec (first_fail 90 miles 2) (2 + Z.of_nat 90)); [lia|reflexivity]. }
  rewrite E. set (i := first_fail 90 miles 2) in *.
  assert (Hlt : F32.ltb miles f_5 = false) by (apply SFleb_ltb; exact H5).
  split; [lia|]. split; [reflexivity|].
  split; [apply (first_fail_passes 90 miles 2); fold i; lia|].
  split; [apply (first_fail_fails 90 miles 2); fold i; lia|].
  split.
  - rewrite fib_interpolate_spec, Hlt. cbv zeta. rewrite E. fold i.
    unfold walk_at. destruct (Z.eqb_spec (i - 2) 0); [lia|].
    cbn [prev_km prev_mile curr_km curr_mile]. unfold bracket_value.
    replace (i - 2 + 1) with (i - 1) by lia. replace (i - 2 + 2) with i by lia.
    replace (i - 2 + 3) with (i + 1) by lia. reflexivity.
  - rewrite cache_convert_spec, Hlt. cbv zeta. fold i.
    destruct (Z.leb_spec 92 i); [lia|]. reflexivity.
Qed.

Lemma SFleb_total x y :
  is_nan x = false -> is_nan y = false -> SFleb x y = false -> SFleb y x = true.
Proof.
  intros Hx Hy H. apply SFltb_false_leb; try assumption.
  unfold SFltb, SFleb in *. destruct (SFcompare x y) as [[]|]; congruence.
Qed.

Lemma exact_int_scaled mc ec c E :
  exact_int mc ec c -> E <= 0 -> E <= ec ->
  Z.pos mc * 2 ^ (ec - E) = c * 2 ^ (- E).
Proof.
  unfold exact_int. intros H H0 H1.
  replace (ec - E) with (ec - Z.min 0 ec + (Z.min 0 ec - E)) by lia.
  replace (- E) with (- Z.min 0 ec + (Z.min 0 ec - E)) by lia.
  rewrite !Z.pow_add_r, !Z.mul_assoc, H by lia. reflexivity.
Qed.

Lemma trunc_lt_int m e c mc ec :
  canonical_mant F32.prec F32.emax (Z.pos m) e ->
  canonical_mant F32.prec F32.emax (Z.pos mc) ec ->
  exact_int mc ec c ->
  F32.ltb (S754_finite false m e) (S754_finite false mc ec) = true ->
  exists z, trunc (S754_finite false m e) = Some z /\ 0 <= z < c.
Proof.
  intros C Cc Hc H. cbn [trunc]. cbv zeta.
  set (E := Z.min 0 (Z.min e ec)).
  rewrite (trunc_scaled m e E) by lia.
  eexists. split; [reflexivity|].
  assert (HP : 0 < 2 ^ (- E)) by (apply Z.pow_pos_nonneg; lia).
  pose proof (lt_scaled _ _ _ _ E C Cc H ltac:(lia) ltac:(lia)) as Hlt.
  rewrite (exact_int_scaled mc ec c E Hc) in Hlt by lia.
  split.
  - apply Z.div_pos; [|lia]. apply Z.mul_nonneg_nonneg; [lia|apply Z.pow_nonneg; lia].
  - apply Z.div_lt_upper_bound; lia.
Qed.

Lemma trunc_le_int m e c mc ec :
  canonical_mant F32.prec F32.emax (Z.pos m) e ->
  canonical_mant F32.prec F32.emax (Z.pos mc) ec ->
  exact_int mc ec c ->
  F32.leb (S754_finite false m e) (S754_finite false mc ec) = true ->
  exists z, trunc (S754_finite false m e) = Some z /\ 0 <= z <= c.
Proof.
  intros C Cc Hc H. cbn [trunc]. cbv zeta.
  set (E := Z.min 0 (Z.min e ec)).
  rewrite (trunc_scaled m e E) by lia.
  eexists. split; [reflexivity|].
  assert (HP : 0 < 2 ^ (- E)) by (apply Z.pow_pos_nonneg; lia).
  pose proof (nn_le_lex F32.prec F32.emax F32_prec_pos _ _ _ _ E C Cc H ltac:(lia) ltac:(lia))
    as Hle.
  rewrite (exact_int_scaled mc ec c E Hc) in Hle by lia.
  split.
  - apply Z.div_pos; [|lia]. apply Z.mul_nonneg_nonneg; [lia|apply Z.pow_nonneg; lia].
  - apply Z.div_le_upper_bound; lia.
Qed.

(** The shapes of a valid value that is at least zero. *)
Lemma nonneg_valid_cases x :
  F32.valid x = true -> F32.leb f_0 x = true ->
  (exists s, x = S754_zero s) \/ pos_valid x = true \/ x = S754_infinity false.
Proof.
  intros V H. destruct x as [s|[]| |[] m e]; try discriminate H.
  - left. eauto.
  - right. right. reflexivity.
  - right. left. exact V.
Qed.

(** Conversion to [int] of two ordered values between 0 and an integer
    bound [c] that an [int] holds. *)
Lemma to_int_mono m1 m2 c mc ec :
  F32.valid m1 = true -> F32.valid m2 = true ->
  F32.leb f_0 m1 = true -> F32.leb m1 m2 = true ->
  pos_valid (S754_finite false mc ec) = true -> exact_int mc ec c -> c <= INT_MAX ->
  F32.leb m2 (S754_finite false mc ec) = true ->
  exists z1 z2, to_int m1 = Done z1 /\ to_int m2 = Done z2 /\ 0 <= z1 <= z2 /\ z2 <= c.
Proof.
  intros V1 V2 H0 H12 Vc Hc Hmax H2.
  assert (H02 : F32.leb f_0 m2 = true) by (eapply SFleb_trans; eassumption).
  destruct (pos_valid_inv _ Vc) as (mc' & ec' & Ec & Cc & _). injection Ec as <- <-.
  assert (Hint : forall z, 0 <= z <= c -> (INT_MIN <=? z) && (z <=? INT_MAX) = true).
  { intros z Hz. unfold INT_MIN, INT_MAX in *.
    destruct (Z.leb_spec (- 2 ^ 31) z), (Z.leb_spec z (2 ^ 31 - 1)); try reflexivity; lia. }
  assert (Hc0 : 0 <= c).
  { destruct (trunc_le_int mc ec c mc ec Cc Cc Hc (SFleb_refl (S754_finite false mc ec) eq_refl))
      as (z & _ & Hz). lia. }
  destruct (nonneg_valid_cases m2 V2 H02) as [[s2 ->]|[P2| ->]]; [| |discriminate H2].
  - (* m2 is a zero, and so is m1 *)
    destruct (nonneg_valid_cases m1 V1 H0) as [[s1 ->]|[P1| ->]]; [| |discriminate H12].
    + exists 0, 0. unfold to_int. cbn [trunc]. rewrite Hint by lia. repeat split; lia.
    + destruct (pos_valid_inv _ P1) as (m & e & -> & _). discriminate H12.
  - destruct (pos_valid_inv _ P2) as (p2 & e2 & -> & C2 & _).
    destruct (trunc_le_int p2 e2 c mc ec C2 Cc Hc H2) as (z2 & T2 & Hz2).
    destruct (nonneg_valid_cases m1 V1 H0) as [[s1 ->]|[P1| ->]]; [| |discriminate H12].
    + exists 0, z2. unfold to_int. rewrite T2. cbn [trunc]. rewrite !Hint by lia.
      repeat split; lia.
    + destruct (pos_valid_inv _ P1) as (p1 & e1 & -> & C1 & _).
      destruct (trunc_mono p1 e1 p2 e2 C1 C2 H12) as (z1 & z2' & T1 & T2' & Hz).
      rewrite T2 in T2'. injection T2' as <-.
      exists z1, z2. unfold to_int. rewrite T1, T2, !Hint by lia. repeat split; lia.
Qed.

Lemma basic_miles2km_call_mono m1 m2 c mc ec :
  F32.valid m1 = true -> F32.valid m2 = true ->
  F32.leb f_0 m1 = true -> F32.leb m1 m2 = true ->
  pos_valid (S754_finite false mc ec) = true -> exact_int mc ec c -> c <= INT_MAX ->
  F32.leb m2 (S754_finite false mc ec) = true ->
  exists z1 z2,
    basic_miles2km_call m1 = Done (basic_miles2km z1)
    /\ basic_miles2km_call m2 = Done (basic_miles2km z2)
    /\ 0 <= z1 <= z2 /\ z2 <= c
    /\ F32.leb (basic_miles2km z1) (basic_miles2km z2) = true.
Proof.
  intros V1 V2 H0 H12 Vc Hc Hmax H2.
  destruct (to_int_mono m1 m2 c mc ec V1 V2 H0 H12 Vc Hc Hmax H2)
    as (z1 & z2 & T1 & T2 & Hz & Hz2).
  exists z1, z2. unfold basic_miles2km_call. rewrite T1, T2.
  split; [reflexivity|]. split; [reflexivity|]. split; [assumption|]. split; [assumption|].
  apply basic_miles2km_mono. assumption.
Qed.

Lemma to_int_lt m c mc ec :
  F32.valid m = true -> F32.leb f_0 m = true ->
  pos_valid (S754_finite false mc ec) = true -> exact_int mc ec c -> c <= INT_MAX ->
  F32.ltb m (S754_finite false mc ec) = true ->
  exists z, to_int m = Done z /\ 0 <= z < c.
Proof.
  intros V H0 Vc Hc Hmax Hlt.
  destruct (pos_valid_inv _ Vc) as (mc' & ec' & Ec & Cc & _). injection Ec as <- <-.
  assert (Hint : forall z, 0 <= z < c -> (INT_MIN <=? z) && (z <=? INT_MAX) = true).
  { intros z Hz. unfold INT_MIN, INT_MAX in *.
    destruct (Z.leb_spec (- 2 ^ 31) z), (Z.leb_spec z (2 ^ 31 - 1)); try reflexivity; lia. }
  destruct (nonneg_valid_cases m V H0) as [[s ->]|[P| ->]]; [| |discriminate Hlt].
  - assert (0 < c).
    { destruct (trunc_le_int mc ec c mc ec Cc Cc Hc (SFleb_refl (S754_finite false mc ec) eq_refl))
        as (z & T & Hz).
      destruct (Z.eq_dec c 0) as [->|]; [|lia]. exfalso.
      unfold exact_int in Hc. rewrite Z.mul_0_l in Hc.
      assert (0 < 2 ^ (ec - Z.min 0 ec)) by (apply Z.pow_pos_nonneg; lia). nia. }
    exists 0. unfold to_int. cbn [trunc]. rewrite Hint by lia. split; [reflexivity|lia].
  - destruct (pos_valid_inv _ P) as (p & e & -> & C & _).
    destruct (trunc_lt_int p e c mc ec C Cc Hc Hlt) as (z & T & Hz).
    exists z. unfold to_int. rewrite T, Hint by lia. split; [reflexivity|lia].
Qed.

Lemma SFleb_ltb_trans x y z : SFleb x y = true -> SFltb y z = true -> SFltb x z = true.
Proof.
  intros Hxy Hyz.
  destruct (SFleb_not_nan _ _ Hxy) as [Nx Ny].
  destruct (SFltb_not_nan _ _ Hyz) as [_ Nz].
  destruct (SFltb x z) eqn:E; [reflexivity|]. exfalso.
  apply (SFltb_false_leb x z Nx Nz) in E.
  pose proof (SFleb_trans _ _ _ E Hxy) as Hzy. apply SFleb_ltb in Hzy. congruence.
Qed.

Lemma f_5_exact : pos_valid f_5 = true /\ exact_int 10485760 (-21) 5.
Proof. split; reflexivity. Qed.

Lemma bracket_lower i miles :
  6 <= i <= LAST_PIECE -> pos_valid miles = true -> passes miles (i - 1) = true ->
  F32.leb (F32.of_Z (fibonacci i)) (bracket_value i miles) = true.
Proof.
  intros Hi V Hp. pose proof (piece_ok_all i Hi) as Hok.
  generalize Hok. unfold piece_ok at 1. intros Hok'.
  apply andb_prop in Hok' as [Hok' _]. apply andb_prop in Hok' as [Hok' Hlow].
  apply andb_prop in Hok' as [Hok' _]. apply andb_prop in Hok' as [HXv _].
  eapply SFleb_trans; [exact Hlow|].
  apply bracket_mono; try assumption.
  apply SFleb_refl. destruct (pos_valid_inv _ HXv) as (m & e & -> & _). reflexivity.
Qed.

Lemma bracket_upper i miles :
  6 <= i <= LAST_PIECE -> pos_valid miles = true ->
  passes miles (i - 1) = true -> passes miles i = false ->
  F32.leb (bracket_value i miles) (F32.of_Z (fibonacci (i + 1))) = true.
Proof.
  intros Hi V Hp Hf. pose proof (piece_ok_all i Hi) as Hok.
  generalize Hok. unfold piece_ok at 1. intros Hok'.
  apply andb_prop in Hok' as [Hok' Hup]. apply andb_prop in Hok' as [Hok' _].
  apply andb_prop in Hok' as [Hok' _]. apply andb_prop in Hok' as [_ HA].
  eapply SFleb_trans; [|exact Hup].
  apply bracket_mono; try assumption.
  apply SFleb_total; [| |exact Hf].
  - destruct (pos_valid_inv _ HA) as (m & e & -> & _). reflexivity.
  - destruct (pos_valid_inv _ V) as (m & e & -> & _). reflexivity.
Qed.

Lemma pos_valid_of_ge_5 miles :
  F32.valid miles = true -> F32.leb f_5 miles = true ->
  passes miles LAST_PIECE = false -> pos_valid miles = true.
Proof.
  intros V H5 Hl.
  assert (H0 : F32.leb f_0 miles = true) by (eapply SFleb_trans; [|exact H5]; reflexivity).
  destruct (nonneg_valid_cases miles V H0) as [[s ->]|[P| ->]].
  - destruct s; vm_compute in H5; discriminate H5.
  - exact P.
  - vm_compute in Hl. discriminate Hl.
Qed.

(** Below the last good bracket the two interpolating converters are
    non-decreasing, and agree. *)
Lemma interpolate_mono_core m1 m2 :
  F32.valid m1 = true -> F32.valid m2 = true ->
  F32.leb f_0 m1 = true -> F32.leb m1 m2 = true ->
  passes m2 LAST_PIECE = false ->
  exists a b,
    fib_interpolate m1 = Some (Done a) /\ fib_interpolate m2 = Some (Done b)
    /\ cache_convert fib_table m1 = Done a /\ cache_convert fib_table m2 = Done b
    /\ F32.leb a b = true.
Proof.
  intros V1 V2 H0 H12 Hl2.
  destruct (SFleb_not_nan _ _ H12) as [N1 N2].
  assert (H02 : F32.leb f_0 m2 = true) by (eapply SFleb_trans; eassumption).
  assert (Hl1 : passes m1 LAST_PIECE = false).
  { destruct (passes m1 LAST_PIECE) eqn:E; [|reflexivity].
    rewrite (passes_mono m1 m2 _ H12 E) in Hl2. discriminate Hl2. }
  destruct f_5_exact as [V5 X5].
  destruct (F32.ltb m2 f_5) eqn:L2.
  - (* both below 5: two calls of basic_miles2km *)
    assert (L1 : F32.ltb m1 f_5 = true) by (eapply SFleb_ltb_trans; eassumption).
    destruct (basic_miles2km_call_mono m1 m2 5 10485760 (-21) V1 V2 H0 H12 V5 X5
                ltac:(unfold INT_MAX; lia) (SFltb_leb _ _ L2))
      as (z1 & z2 & E1 & E2 & _ & _ & Hle).
    exists (basic_miles2km z1), (basic_miles2km z2).
    rewrite !fib_interpolate_spec, !cache_convert_spec, L1, L2, E1, E2. auto.
  - apply (SFltb_false_leb m2 f_5 N2 eq_refl) in L2.
    pose proof (pos_valid_of_ge_5 m2 V2 L2 Hl2) as P2.
    destruct (in_bracket m2 L2 Hl2) as (Hi2 & _ & Hp2 & Hf2 & E2 & E2').
    set (i2 := first_fail 91 m2 2) in *.
    pose proof (bracket_lower i2 m2 Hi2 P2 Hp2) as Hlow2.
    destruct (F32.ltb m1 f_5) eqn:L1.
    + (* m1 below 5, m2 in a bracket *)
      destruct (to_int_lt m1 5 10485760 (-21) V1 H0 V5 X5 ltac:(unfold INT_MAX; lia) L1)
        as (z1 & T1 & Hz1).
      exists (basic_miles2km z1), (bracket_value i2 m2).
      rewrite fib_interpolate_spec, cache_convert_spec, L1.
      unfold basic_miles2km_call. rewrite T1.
      split; [reflexivity|]. split; [exact E2|]. split; [reflexivity|]. split; [exact E2'|].
      apply SFleb_trans with (basic_miles2km 4);
        [apply basic_miles2km_mono; lia|].
      apply SFleb_trans with (F32.of_Z (fibonacci 6)); [vm_compute; reflexivity|].
      apply SFleb_trans with (F32.of_Z (fibonacci i2)); [|exact Hlow2].
      apply of_Z_le. split; [vm_compute; discriminate|].
      apply fibonacci_mono; unfold LAST_PIECE in *; lia.
    + apply (SFltb_false_leb m1 f_5 N1 eq_refl) in L1.
      pose proof (pos_valid_of_ge_5 m1 V1 L1 Hl1) as P1.
      destruct (in_bracket m1 L1 Hl1) as (Hi1 & _ & Hp1 & Hf1 & E1 & E1').
      set (i1 := first_fail 91 m1 2) in *.
      exists (bracket_value i1 m1), (bracket_value i2 m2).
      split; [exact E1|]. split; [exact E2|]. split; [exact E1'|]. split; [exact E2'|].
      assert (Hii : i1 <= i2).
      { apply first_fail_mono. intros j. apply passes_mono. exact H12. }
      destruct (Z.eq_dec i1 i2) as [Eq|Ne].
      * rewrite <- Eq. apply bracket_mono; try assumption.
        apply piece_ok_all. exact Hi1.
      * apply SFleb_trans with (F32.of_Z (fibonacci (i1 + 1)));
          [apply bracket_upper; assumption|].
        apply SFleb_trans with (F32.of_Z (fibonacci i2)); [|exact Hlow2].
        apply of_Z_le. split.
        -- apply (fibonacci_range (i1 + 1)). unfold LAST_PIECE in *. lia.
        -- apply fibonacci_mono; unfold LAST_PIECE in *; lia.
Qed.

Lemma f_93_exact : pos_valid f_93 = true /\ exact_int 12189696 (-17) 93.
Proof. split; reflexivity. Qed.

Lemma below_last_piece miles :
  F32.leb miles f_93 = true -> passes miles LAST_PIECE = false.
Proof.
  intros H. destruct (passes miles LAST_PIECE) eqn:E; [|reflexivity].
  unfold passes, F32.leb in *.
  pose proof (SFleb_trans _ _ _ E H) as Hc. vm_compute in Hc. discriminate Hc.
Qed.

(** C5 (amended). For all valid [m1 < m2] between 0 and 93, the results
    of [basic_miles2km] (called with them, or with integers of that
    range), of [fib_interpolate] and of [fib_cache_convert] are defined
    and non-decreasing. [fib_golden_ratio] is left out: it is not
    monotone. *)
Theorem monotone_on_0_93 st1 st2 m1 m2 :
  cache_reachable st1 -> cache_reachable st2 ->
  F32.valid m1 = true -> F32.valid m2 = true ->
  F32.leb f_0 m1 = true -> F32.ltb m1 m2 = true -> F32.leb m2 f_93 = true ->
  (exists a b, basic_miles2km_call m1 = Done a /\ basic_miles2km_call m2 = Done b
               /\ F32.leb a b = true)
  /\ (exists a b, fib_interpolate m1 = Some (Done a) /\ fib_interpolate m2 = Some (Done b)
                  /\ F32.leb a b = true)
  /\ (exists a b, snd (fib_cache_convert st1 m1) = Done a
                  /\ snd (fib_cache_convert st2 m2) = Done b
                  /\ F32.leb a b = true)
  /\ (forall z1 z2, 0 <= z1 -> z1 < z2 -> z2 <= 93 ->
                    F32.leb (basic_miles2km z1) (basic_miles2km z2) = true).
Proof.
  intros R1 R2 V1 V2 H0 Hlt H93.
  pose proof (SFltb_leb _ _ Hlt) as H12.
  destruct f_93_exact as [V93 X93].
  split.
  - destruct (basic_miles2km_call_mono m1 m2 93 12189696 (-17) V1 V2 H0 H12 V93 X93
                ltac:(unfold INT_MAX; lia) H93) as (z1 & z2 & E1 & E2 & _ & _ & Hle).
    eauto.
  - destruct (interpolate_mono_core m1 m2 V1 V2 H0 H12 (below_last_piece m2 H93))
      as (a & b & E1 & E2 & E1' & E2' & Hle).
    split; [eauto|]. split.
    + exists a, b. rewrite !fib_cache_convert_reachable by assumption. cbn [snd]. auto.
    + intros z1 z2 Hz1 Hz12 Hz2. apply basic_miles2km_mono. lia.
Qed.

Lemma monotone_on_0_93_witness :
  (exists a b, basic_miles2km_call f_2_5 = Done a /\ basic_miles2km_call (F32.of_Z 10) = Done b
               /\ F32.leb a b = true)
  /\ (exists a b, fib_interpolate f_2_5 = Some (Done a)
                  /\ fib_interpolate (F32.of_Z 10) = Some (Done b)
                  /\ F32.leb a b = true)
  /\ (exists a b, snd (fib_cache_convert cache_state_start f_2_5) = Done a
                  /\ snd (fib_cache_convert cache_state_ready (F32.of_Z 10)) = Done b
                  /\ F32.leb a b = true)
  /\ (forall z1 z2, 0 <= z1 -> z1 < z2 -> z2 <= 93 ->
                    F32.leb (basic_miles2km z1) (basic_miles2km z2) = true).
Proof.
  apply (monotone_on_0_93 cache_state_start cache_state_ready f_2_5 (F32.of_Z 10)).
  - apply reach_start.
  - apply (reach_call cache_state_start f_0 reach_start).
  - vm_compute. reflexivity.
  - vm_compute. reflexivity.
  - vm_compute. reflexivity.
  - vm_compute. reflexivity.
  - vm_compute. reflexivity.
Defined.

(** C5 as stated fails for [fib_golden_ratio]: it picks its bracket by
    the logarithm, so between 3.0625 and 3.078125 it moves from the
    bracket (2, 3) to (3, 5) and its result drops from 5.125 to
    5.1171875. *)
Lemma golden_ratio_not_monotone :
  F32.leb f_0 f_3_0625 = true /\ F32.ltb f_3_0625 f_3_078125 = true
  /\ F32.leb f_3_078125 f_93 = true
  /\ fib_golden_ratio Libm.log Libm.pow f_3_0625 = Done (S754_finite false 10747904 (-21))
  /\ fib_golden_ratio Libm.log Libm.pow f_3_078125 = Done (S754_finite false 10731520 (-21))
  /\ F32.leb (S754_finite false 10747904 (-21)) (S754_finite false 10731520 (-21)) = false.
Proof.
  split; [vm_compute; reflexivity|]. split; [vm_compute; reflexivity|].
  split; [vm_compute; reflexivity|]. split; [vm_compute; reflexivity|].
  split; vm_compute; reflexivity.
Qed.


(** * Further properties of the converters *)

(** *** [fibonacci] modulo 2^64 *)





(** X2. The loop of [fib_interpolate] stops after at most 91 iterations for
    every argument, so the function always returns; 90 iterations are not
    enough for an infinite argument. *)
Theorem fib_interpolate_terminates fuel miles :
  (91 <= fuel)%nat ->
  fib_interpolate_fuel fuel miles = fib_interpolate miles
  /\ (exists r, fib_interpolate miles = Some r)
  /\ fib_interpolate_fuel 90 (S754_infinity false) = None.
Proof.
  intros Hf. split; [apply fib_interpolate_fuel_enough; assumption|].
  split; [apply fib_interpolate_total|]. vm_compute. reflexivity.
Qed.

Lemma fib_interpolate_terminates_witness :
  fib_interpolate_fuel 91 S754_nan = fib_interpolate S754_nan
  /\ (exists r, fib_interpolate S754_nan = Some r)
  /\ fib_interpolate_fuel 90 (S754_infinity false) = None.
Proof. apply (fib_interpolate_terminates 91 S754_nan). lia. Defined.

(** X3. [basic_miles2km] is monotone on non-negative integers: more miles
    never give fewer kilometres, roundings of the [float] product
    included. *)
Theorem basic_miles2km_monotone z1 z2 :
  0 <= z1 -> z1 <= z2 -> F32.leb (basic_miles2km z1) (basic_miles2km z2) = true.
Proof. intros H1 H2. apply basic_miles2km_mono. lia. Qed.

Lemma basic_miles2km_monotone_witness :
  F32.leb (basic_miles2km 21) (basic_miles2km 2147483647) = true.
Proof. apply (basic_miles2km_monotone 21 2147483647); lia. Defined.

(** X4. Below [fibonacci(41)] = 165580141 miles, [fib_interpolate] and
    [fib_cache_convert] (in any state of its cache) are defined, return the
    same [float], and are monotone, for all non-negative [float]
    arguments. *)
Theorem interpolating_converters_monotone st1 st2 m1 m2 :
  cache_reachable st1 -> cache_reachable st2 ->
  F32.valid m1 = true -> F32.valid m2 = true ->
  F32.leb f_0 m1 = true -> F32.leb m1 m2 = true ->
  F32.leb (F32.of_Z (fibonacci 41)) m2 = false ->
  exists a b,
    fib_interpolate m1 = Some (Done a) /\ fib_interpolate m2 = Some (Done b)
    /\ snd (fib_cache_convert st1 m1) = Done a /\ snd (fib_cache_convert st2 m2) = Done b
    /\ F32.leb a b = true.
Proof.
  intros R1 R2 V1 V2 H0 H12 H41.
  destruct (interpolate_mono_core m1 m2 V1 V2 H0 H12 H41) as (a & b & E1 & E2 & E1' & E2' & Hle).
  exists a, b. rewrite !fib_cache_convert_reachable by assumption. cbn [snd]. auto.
Qed.

Lemma interpolating_converters_monotone_witness :
  exists a b,
    fib_interpolate (F32.of_Z 93) = Some (Done a)
    /\ fib_interpolate (F32.of_Z 100000000) = Some (Done b)
    /\ snd (fib_cache_convert cache_state_start (F32.of_Z 93)) = Done a
    /\ snd (fib_cache_convert cache_state_start (F32.of_Z 100000000)) = Done b
    /\ F32.leb a b = true.
Proof.
  apply (interpolating_converters_monotone cache_state_start cache_state_start
           (F32.of_Z 93) (F32.of_Z 100000000)).
  - apply reach_start.
  - apply reach_start.
  - vm_compute. reflexivity.
  - vm_compute. reflexivity.
  - vm_compute. reflexivity.
  - vm_compute. reflexivity.
  - vm_compute. reflexivity.
Defined.

(** Monotonicity is lost further up: just below [fibonacci(42)] the result
    of [fib_interpolate] is larger than at [fibonacci(42)]. *)
Remark fib_interpolate_drops_at_fib42 :
  F32.valid (S754_finite false 16744643 4) = true
  /\ F32.of_Z (fibonacci 42) = S754_finite false 16744644 4
  /\ F32.ltb (S754_finite false 16744643 4) (S754_finite false 16744644 4) = true
  /\ fib_interpolate (S754_finite false 16744643 4)
     = Some (Done (S754_finite false 13546702 5))
  /\ fib_interpolate (S754_finite false 16744644 4)
     = Some (Done (S754_finite false 13546701 5))
  /\ F32.ltb (S754_finite false 13546701 5) (S754_finite false 13546702 5) = true.
Proof.
  split; [vm_compute; reflexivity|]. split; [vm_compute; reflexivity|].
  split; [vm_compute; reflexivity|]. split; [vm_compute; reflexivity|].
  split; vm_compute; reflexivity.
Qed.

(** X5. For [5 <= miles < fibonacci(41)], [fib_interpolate] stops at the
    bracket [fibonacci(i-1) <= miles < fibonacci(i)] and its result lies
    between [fibonacci(i)] and [fibonacci(i+1)]: the kilometres are within
    the next bracket of the sequence. *)
Theorem fib_interpolate_within_bracket miles :
  F32.valid miles = true -> F32.leb f_5 miles = true ->
  F32.leb (F32.of_Z (fibonacci 41)) miles = false ->
  exists i r,
    6 <= i <= 41
    /\ F32.leb (F32.of_Z (fibonacci (i - 1))) miles = true
    /\ F32.leb (F32.of_Z (fibonacci i)) miles = false
    /\ fib_interpolate miles = Some (Done r)
    /\ F32.leb (F32.of_Z (fibonacci i)) r = true
    /\ F32.leb r (F32.of_Z (fibonacci (i + 1))) = true.
Proof.
  intros V H5 H41.
  destruct (in_bracket miles H5 H41) as (Hi & _ & Hp & Hf & E & _).
  pose proof (pos_valid_of_ge_5 miles V H5 H41) as P.
  exists (first_fail 91 miles 2), (bracket_value (first_fail 91 miles 2) miles).
  split; [exact Hi|]. split; [exact Hp|]. split; [exact Hf|]. split; [exact E|].
  split; [apply bracket_lower; assumption|apply bracket_upper; assumption].
Qed.

Lemma fib_interpolate_within_bracket_witness :
  exists i r,
    6 <= i <= 41
    /\ F32.leb (F32.of_Z (fibonacci (i - 1))) (F32.of_Z 10) = true
    /\ F32.leb (F32.of_Z (fibonacci i)) (F32.of_Z 10) = false
    /\ fib_interpolate (F32.of_Z 10) = Some (Done r)
    /\ F32.leb (F32.of_Z (fibonacci i)) r = true
    /\ F32.leb r (F32.of_Z (fibonacci (i + 1))) = true.
Proof.
  apply (fib_interpolate_within_bracket (F32.of_Z 10)); vm_compute; reflexivity.
Defined.

Lemma same_float_eq a b : same_float a b = true -> a = b.
Proof.
  destruct a as [| | |[] m e], b as [| | |[] m' e']; try discriminate.
  cbn [same_float]. intros H. apply andb_prop in H as [H1 H2].
  apply Z.eqb_eq in H1, H2. injection H1 as ->. subst e'. reflexivity.
Qed.

(** X6. A Fibonacci number of miles is converted to the next Fibonacci
    number exactly (as [float]s): by [fib_interpolate] for the 5th to the
    92nd number, by [fib_cache_convert] for the 5th to the 90th. *)
Theorem fibonacci_miles_to_next st k :
  cache_reachable st -> 5 <= k <= 92 ->
  fib_interpolate (F32.of_Z (fibonacci k)) = Some (Done (F32.of_Z (fibonacci (k + 1))))
  /\ (k <= 90 ->
      snd (fib_cache_convert st (F32.of_Z (fibonacci k)))
      = Done (F32.of_Z (fibonacci (k + 1)))).
Proof.
  intros R Hk. split.
  - assert (H : maps_to_next k = true)
      by (apply (Z_range_forallb maps_to_next 5 88); [vm_compute; reflexivity|lia]).
    unfold maps_to_next in H.
    destruct (fib_interpolate (F32.of_Z (fibonacci k))) as [[r|]|]; try discriminate H.
    apply same_float_eq in H. rewrite H. reflexivity.
  - intros Hk'. rewrite fib_cache_convert_reachable by assumption. cbn [snd].
    assert (H : cache_maps_to_next k = true)
      by (apply (Z_range_forallb cache_maps_to_next 5 86); [vm_compute; reflexivity|lia]).
    unfold cache_maps_to_next in H.
    destruct (cache_convert fib_table (F32.of_Z (fibonacci k))) as [r|]; try discriminate H.
    apply same_float_eq in H. rewrite H. reflexivity.
Qed.

Lemma fibonacci_miles_to_next_witness :
  fib_interpolate (F32.of_Z (fibonacci 5)) = Some (Done (F32.of_Z (fibonacci (5 + 1))))
  /\ (5 <= 90 ->
      snd (fib_cache_convert cache_state_start (F32.of_Z (fibonacci 5)))
      = Done (F32.of_Z (fibonacci (5 + 1)))).
Proof. apply (fibonacci_miles_to_next cache_state_start 5); [apply reach_start|lia]. Defined.

(** X7. The [--fib] branch of [main] never reports a failed calculation;
    for 1 to 92 miles it prints the true Fibonacci number of [miles + 1];
    for 93 miles, which it accepts, [fibonacci(94)] has wrapped around and
    the printed value is below [fibonacci(93)]. *)
Theorem main_fib_report e miles :
  main_fib e miles <> CalculationFailed
  /\ (e = true -> 1 <= miles <= 92 ->
      main_fib e miles = Converted miles (fibonacci_exact (miles + 1)))
  /\ main_fib true 93 = Converted 93 (fibonacci_exact 94 - 2 ^ 64)
  /\ fibonacci_exact 94 - 2 ^ 64 < fibonacci_exact 93.
Proof.
  assert (Hpos : forall n, 1 <= n <= 94 -> fibonacci n <> 0).
  { intros n Hn.
    assert (H : negb (fibonacci n =? 0) = true)
      by (apply (Z_range_forallb (fun n => negb (fibonacci n =? 0)) 1 94);
          [vm_compute; reflexivity|lia]).
    destruct (Z.eqb_spec (fibonacci n) 0); [discriminate H|assumption]. }
  split; [|split; [|split]].
  - unfold main_fib. destruct (negb e || (miles <=? 0)) eqn:E1; [discriminate|].
    destruct (Z.ltb_spec 93 miles); [discriminate|]. cbv zeta.
    apply orb_false_elim in E1 as [_ E1]. apply Z.leb_gt in E1.
    destruct (Z.eqb_spec (fibonacci (miles + 1)) 0) as [E0|N0].
    + exfalso. apply (Hpos (miles + 1)); [lia|assumption].
    + cbn [andb]. discriminate.
  - intros -> Hm. unfold main_fib. cbn [negb orb].
    destruct (Z.leb_spec miles 0); [lia|]. destruct (Z.ltb_spec 93 miles); [lia|].
    cbv zeta. destruct (Z.eqb_spec (fibonacci (miles + 1)) 0) as [E0|N0].
    + exfalso. apply (Hpos (miles + 1)); [lia|assumption].
    + cbn [andb]. rewrite fibonacci_no_wrap by lia. reflexivity.
  - vm_compute. reflexivity.
  - vm_compute. reflexivity.
Qed.

Lemma main_fib_report_witness :
  main_fib true 21 = Converted 21 (fibonacci_exact (21 + 1)).
Proof. apply (proj1 (proj2 (main_fib_report true 21))); [reflexivity|lia]. Defined.

Lemma trunc_ge_int m e c mc ec :
  canonical_mant F32.prec F32.emax (Z.pos m) e ->
  canonical_mant F32.prec F32.emax (Z.pos mc) ec ->
  exact_int mc ec c ->
  F32.leb (S754_finite false mc ec) (S754_finite false m e) = true ->
  exists z, trunc (S754_finite false m e) = Some z /\ c <= z.
Proof.
  intros C Cc Hc H. cbn [trunc]. cbv zeta.
  set (E := Z.min 0 (Z.min e ec)).
  rewrite (trunc_scaled m e E) by lia.
  eexists. split; [reflexivity|].
  assert (HP : 0 < 2 ^ (- E)) by (apply Z.pow_pos_nonneg; lia).
  pose proof (nn_le_lex F32.prec F32.emax F32_prec_pos _ _ _ _ E Cc C H ltac:(lia) ltac:(lia))
    as Hle.
  rewrite (exact_int_scaled mc ec c E Hc) in Hle by lia.
  apply Z.div_le_lower_bound; lia.
Qed.

Lemma above_int_max p e :
  canonical_mant F32.prec F32.emax (Z.pos p) e ->
  F32.leb (S754_finite false p e) f_int_max = false ->
  F32.leb f_2p31 (S754_finite false p e) = true.
Proof.
  intros C H. change f_int_max with (S754_finite false 16777215 7) in H.
  change f_2p31 with (S754_finite false 8388608 8).
  destruct (canonical_bounds F32.prec F32.emax F32_prec_pos _ _ C) as (He & Hu & Hn).
  change (2 ^ F32.prec) with 16777216 in Hu. change (2 ^ (F32.prec - 1)) with 8388608 in Hn.
  apply SFleb_finite_pos.
  destruct (Z.le_gt_cases e 7) as [Hle|Hgt].
  - exfalso. assert (F32.leb (S754_finite false p e) (S754_finite false 16777215 7) = true);
      [|congruence].
    apply SFleb_finite_pos. lia.
  - assert (emin F32.prec F32.emax < e) by (vm_compute; destruct e; try reflexivity; lia).
    specialize (Hn ltac:(assumption)). lia.
Qed.

(** X8. Calling [basic_miles2km] with a non-negative [float] argument (the
    implicit conversion to [int] included) is defined and monotone up to
    2147483520, the largest [float] below 2^31; from 2^31 on the conversion
    is undefined behaviour. No [float] lies in between. *)
Theorem basic_miles2km_call_domain m1 m2 :
  F32.valid m1 = true -> F32.valid m2 = true ->
  F32.leb f_0 m1 = true -> F32.leb m1 m2 = true ->
  if F32.leb m2 f_int_max
  then exists z1 z2,
      basic_miles2km_call m1 = Done (basic_miles2km z1)
      /\ basic_miles2km_call m2 = Done (basic_miles2km z2)
      /\ 0 <= z1 <= z2
      /\ F32.leb (basic_miles2km z1) (basic_miles2km z2) = true
  else basic_miles2km_call m2 = Undefined CastOutOfRange.
Proof.
  intros V1 V2 H0 H12. destruct (F32.leb m2 f_int_max) eqn:Hmax.
  - destruct (basic_miles2km_call_mono m1 m2 2147483520 16777215 7 V1 V2 H0 H12
                eq_refl eq_refl ltac:(unfold INT_MAX; lia) Hmax)
      as (z1 & z2 & E1 & E2 & Hz & _ & Hle).
    exists z1, z2. auto.
  - assert (H02 : F32.leb f_0 m2 = true) by (eapply SFleb_trans; eassumption).
    destruct (nonneg_valid_cases m2 V2 H02) as [[s ->]|[P| ->]].
    + destruct s; vm_compute in Hmax; discriminate Hmax.
    + destruct (pos_valid_inv _ P) as (p & e & -> & C & _).
      pose proof (above_int_max p e C Hmax) as Hbig.
      assert (Cc : canonical_mant F32.prec F32.emax (Z.pos 8388608) 8)
        by (apply valid_canonical; reflexivity).
      destruct (trunc_ge_int p e 2147483648 8388608 8 C Cc eq_refl Hbig) as (z & T & Hz).
      unfold basic_miles2km_call, to_int. rewrite T.
      destruct (Z.leb_spec z INT_MAX) as [Hle|Hgt]; [unfold INT_MAX in Hle; lia|].
      rewrite andb_false_r. reflexivity.
    + reflexivity.
Qed.

Lemma basic_miles2km_call_domain_witness :
  (exists z1 z2,
      basic_miles2km_call (F32.of_Z 21) = Done (basic_miles2km z1)
      /\ basic_miles2km_call f_int_max = Done (basic_miles2km z2)
      /\ 0 <= z1 <= z2
      /\ F32.leb (basic_miles2km z1) (basic_miles2km z2) = true)
  /\ basic_miles2km_call f_2p31 = Undefined CastOutOfRange.
Proof.
  split.
  - apply (basic_miles2km_call_domain (F32.of_Z 21) f_int_max); vm_compute; reflexivity.
  - apply (basic_miles2km_call_domain f_int_max f_2p31); vm_compute; reflexivity.
Defined.

(** *** Entries of the cache that the search never reads *)
Lemma cache_search_agree c c' miles k : forall i,
  2 <= i -> i + Z.of_nat k = 92 ->
  (forall j, 2 <= j <= 91 -> array_get c j = array_get c' j) ->
  cache_search k c miles i = cache_search k c' miles i.
Proof.
  induction k as [|k IH]; intros i Hi Hk Hj; [reflexivity|].
  cbn [cache_search].
  destruct (Z.ltb_spec i (MAX_CACHE - 2)); [|reflexivity].
  rewrite (Hj i) by lia.
  destruct (array_get c' i) as [v|u]; [|reflexivity].
  change (mbind ?f (Done ?x)) with (f x). cbv beta.
  destruct (F32.leb (F32.of_Z v) miles); [|reflexivity].
  apply IH; [lia|lia|assumption].
Qed.

Lemma array_get_insert_ne (c : list Z) (n : nat) (v : Z) (j : Z) :
  0 <= j -> j <> Z.of_nat n -> array_get (<[n := v]> c) j = array_get c j.
Proof.
  intros Hj Hn. unfold array_get. destruct (Z.leb_spec 0 j); [|lia].
  rewrite list_lookup_insert_ne by lia. reflexivity.
Qed.

(** X9. Once the cache is filled, [fib_cache_convert] reads only the
    entries 1 to 92: its result is the same whatever [cache[0]] and
    [cache[93]] hold. *)
Theorem cache_ends_never_read v0 v93 miles :
  cache_convert (<[0%nat := v0]> (<[93%nat := v93]> fib_table)) miles
  = cache_convert fib_table miles.
Proof.
  set (c := <[0%nat := v0]> (<[93%nat := v93]> fib_table)).
  assert (Hg : forall j, 1 <= j <= 92 -> array_get c j = array_get fib_table j).
  { intros j Hj. unfold c. rewrite !array_get_insert_ne by lia. reflexivity. }
  unfold cache_convert. destruct (F32.ltb miles f_5); [reflexivity|].
  change (Z.to_nat (MAX_CACHE - 2 - 2)) with 90%nat.
  rewrite (cache_search_agree c fib_table miles 90 2) by (try lia; intros; apply Hg; lia).
  rewrite (cache_search_at miles 90 2) by lia.
  change (mbind ?f (Done ?x)) with (f x). cbv beta.
  pose proof (first_fail_range 90 miles 2).
  change (MAX_CACHE - 2) with 92.
  destruct (Z.leb_spec 92 (first_fail 90 miles 2)); [reflexivity|].
  rewrite !Hg by lia. reflexivity.
Qed.

(** *** The [--basic] branch of [main] *)

Section Trunc.
Variables prec emax : Z.
Hypothesis Hprec : 0 < prec.

Local Abbreviation canonical := (canonical_mant prec emax).

Lemma trunc_order m1 e1 m2 e2 :
  canonical (Z.pos m1) e1 -> canonical (Z.pos m2) e2 ->
  SFleb (S754_finite false m1 e1) (S754_finite false m2 e2) = true ->
  exists z1 z2, trunc (S754_finite false m1 e1) = Some z1
                /\ trunc (S754_finite false m2 e2) = Some z2
                /\ 0 <= z1 <= z2.
Proof.
  intros C1 C2 H. cbn [trunc]. cbv zeta.
  set (E := Z.min 0 (Z.min e1 e2)).
  rewrite (trunc_scaled m1 e1 E), (trunc_scaled m2 e2 E) by lia.
  eexists _, _. split; [reflexivity|]. split; [reflexivity|].
  assert (HP : 0 < 2 ^ (- E)) by (apply Z.pow_pos_nonneg; lia).
  pose proof (nn_le_lex prec emax Hprec _ _ _ _ E C1 C2 H ltac:(lia) ltac:(lia)).
  split.
  - apply Z.div_pos; [|lia]. apply Z.mul_nonneg_nonneg; [lia|apply Z.pow_nonneg; lia].
  - apply Z.div_le_mono; lia.
Qed.

Lemma trunc_below_int m e c mc ec :
  canonical (Z.pos m) e -> canonical (Z.pos mc) ec -> exact_int mc ec c ->
  SFltb (S754_finite false m e) (S754_finite false mc ec) = true ->
  exists z, trunc (S754_finite false m e) = Some z /\ 0 <= z < c.
Proof.
  intros C Cc Hc H. cbn [trunc]. cbv zeta.
  set (E := Z.min 0 (Z.min e ec)).
  rewrite (trunc_scaled m e E) by lia.
  eexists. split; [reflexivity|].
  assert (HP : 0 < 2 ^ (- E)) by (apply Z.pow_pos_nonneg; lia).
  assert (Hlt : Z.pos m * 2 ^ (e - E) < Z.pos mc * 2 ^ (ec - E)).
  { assert (Hle : Z.pos m * 2 ^ (e - E) <= Z.pos mc * 2 ^ (ec - E)).
    { apply (nn_le_lex prec emax Hprec); try assumption; try lia.
      apply SFltb_leb. exact H. }
    destruct (Z.eq_dec (Z.pos m * 2 ^ (e - E)) (Z.pos mc * 2 ^ (ec - E))) as [Heq|]; [|lia].
    exfalso.
    assert (Hge : SFleb (S754_finite false mc ec) (S754_finite false m e) = true).
    { apply SFleb_finite_pos.
      apply (lex_of_val prec emax Hprec _ _ _ _ E); try assumption; lia. }
    apply SFleb_ltb in Hge. congruence. }
  rewrite (exact_int_scaled mc ec c E Hc) in Hlt by lia.
  split.
  - apply Z.div_pos; [|lia]. apply Z.mul_nonneg_nonneg; [lia|apply Z.pow_nonneg; lia].
  - apply Z.div_lt_upper_bound; lia.
Qed.

Lemma trunc_above_int m e c mc ec :
  canonical (Z.pos m) e -> canonical (Z.pos mc) ec -> exact_int mc ec c ->
  SFleb (S754_finite false mc ec) (S754_finite false m e) = true ->
  exists z, trunc (S754_finite false m e) = Some z /\ c <= z.
Proof.
  intros C Cc Hc H. cbn [trunc]. cbv zeta.
  set (E := Z.min 0 (Z.min e ec)).
  rewrite (trunc_scaled m e E) by lia.
  eexists. split; [reflexivity|].
  assert (HP : 0 < 2 ^ (- E)) by (apply Z.pow_pos_nonneg; lia).
  pose proof (nn_le_lex prec emax Hprec _ _ _ _ E Cc C H ltac:(lia) ltac:(lia)) as Hle.
  rewrite (exact_int_scaled mc ec c E Hc) in Hle by lia.
  apply Z.div_le_lower_bound; lia.
Qed.

End Trunc.

Lemma F64_prec_pos : 0 < F64.prec.
Proof. reflexivity. Qed.

Lemma int_in_range z :
  0 <= z < 2147483648 -> (INT_MIN <=? z) && (z <=? INT_MAX) = true.
Proof.
  intros Hz. unfold INT_MIN, INT_MAX.
  destruct (Z.leb_spec (- 2 ^ 31) z), (Z.leb_spec z (2 ^ 31 - 1)); try reflexivity; lia.
Qed.

(** The conversion to [int] of a non-negative [double] below 2^31. *)
Lemma to_int_double m :
  F64.valid m = true -> F64.leb (F64.of_Z 0) m = true -> F64.ltb m d_2p31 = true ->
  exists z, trunc m = Some z /\ to_int m = Done z /\ 0 <= z <= INT_MAX.
Proof.
  intros V H0 Hlt.
  change d_2p31 with (S754_finite false 4503599627370496 (-21)) in Hlt.
  destruct m as [s|[]| |[] p e]; try discriminate H0; try discriminate Hlt.
  - exists 0. split; [reflexivity|]. split; [reflexivity|]. unfold INT_MAX. lia.
  - assert (C : canonical_mant F64.prec F64.emax (Z.pos p) e)
      by (apply valid_canonical; exact V).
    assert (Cc : canonical_mant F64.prec F64.emax (Z.pos 4503599627370496) (-21))
      by (apply valid_canonical; reflexivity).
    destruct (trunc_below_int F64.prec F64.emax F64_prec_pos p e 2147483648 _ _ C Cc
                eq_refl Hlt) as (z & T & Hz).
    exists z. split; [exact T|]. unfold to_int. rewrite T, int_in_range by lia.
    split; [reflexivity|]. unfold INT_MAX. lia.
Qed.

(** X10. The [--basic] branch of [main] accepts every non-negative
    [double]; below 2^31 it prints the kilometres of the integral part of
    the miles (the fraction is dropped by the conversion to [int]), and
    more miles never print fewer kilometres; from 2^31 on the conversion
    to [int] is undefined behaviour. *)
Theorem main_basic_integer_part m1 m2 :
  F64.valid m1 = true -> F64.valid m2 = true ->
  F64.leb (F64.of_Z 0) m1 = true -> F64.leb m1 m2 = true ->
  if F64.ltb m2 d_2p31
  then exists z1 z2,
      trunc m1 = Some z1 /\ trunc m2 = Some z2 /\ 0 <= z1 <= z2 /\ z2 <= INT_MAX
      /\ main_basic true m1 = Done (BasicConverted m1 (basic_miles2km z1))
      /\ main_basic true m2 = Done (BasicConverted m2 (basic_miles2km z2))
      /\ F32.leb (basic_miles2km z1) (basic_miles2km z2) = true
  else main_basic true m2 = Undefined CastOutOfRange.
Proof.
  intros V1 V2 H0 H12.
  assert (H02 : F64.leb (F64.of_Z 0) m2 = true) by (eapply SFleb_trans; eassumption).
  assert (Hacc : forall m, F64.leb (F64.of_Z 0) m = true ->
                           negb true || F64.ltb m (F64.of_Z 0) = false).
  { intros m Hm. cbn [negb orb]. apply SFleb_ltb. exact Hm. }
  destruct (F64.ltb m2 d_2p31) eqn:Hlt.
  - assert (Hlt1 : F64.ltb m1 d_2p31 = true).
    { apply (SFleb_ltb_trans m1 m2 d_2p31); assumption. }
    destruct (to_int_double m1 V1 H0 Hlt1) as (z1 & T1 & I1 & Hz1).
    destruct (to_int_double m2 V2 H02 Hlt) as (z2 & T2 & I2 & Hz2).
    assert (Hz : z1 <= z2).
    { destruct m1 as [s1|[]| |[] p1 e1]; try discriminate H0; try discriminate Hlt1;
        [cbn [trunc] in T1; injection T1 as <-; lia|].
      destruct m2 as [s2|[]| |[] p2 e2]; try discriminate H02; try discriminate Hlt;
        [discriminate H12|].
      destruct (trunc_order F64.prec F64.emax F64_prec_pos p1 e1 p2 e2
                  ltac:(apply valid_canonical; exact V1)
                  ltac:(apply valid_canonical; exact V2) H12)
        as (a & b & Ta & Tb & Hab).
      rewrite T1 in Ta. rewrite T2 in Tb. injection Ta as <-. injection Tb as <-. lia. }
    exists z1, z2.
    split; [exact T1|]. split; [exact T2|]. split; [lia|]. split; [lia|].
    unfold main_basic, basic_miles2km_call. rewrite !Hacc by assumption. rewrite I1, I2.
    split; [reflexivity|]. split; [reflexivity|].
    apply basic_miles2km_mono. lia.
  - unfold main_basic, basic_miles2km_call. rewrite Hacc by assumption.
    change d_2p31 with (S754_finite false 4503599627370496 (-21)) in Hlt.
    destruct m2 as [s2|[]| |[] p2 e2]; try discriminate H02; try discriminate Hlt;
      [reflexivity|].
    assert (Hge : SFleb (S754_finite false 4503599627370496 (-21)) (S754_finite false p2 e2)
                  = true) by (apply SFltb_false_leb; [reflexivity|reflexivity|exact Hlt]).
    assert (C : canonical_mant F64.prec F64.emax (Z.pos p2) e2)
      by (apply valid_canonical; exact V2).
    assert (Cc : canonical_mant F64.prec F64.emax (Z.pos 4503599627370496) (-21))
      by (apply valid_canonical; reflexivity).
    destruct (trunc_above_int F64.prec F64.emax F64_prec_pos p2 e2 2147483648 _ _
                C Cc eq_refl Hge) as (z & T & Hz).
    unfold to_int. rewrite T.
    destruct (Z.leb_spec z INT_MAX) as [Hle|Hgt]; [unfold INT_MAX in Hle; lia|].
    rewrite andb_false_r. reflexivity.
Qed.

Lemma main_basic_integer_part_witness :
  (exists z1 z2,
      trunc (F64.of_Z 2) = Some z1
      /\ trunc (F64.div (F64.of_Z 5) (F64.of_Z 2)) = Some z2
      /\ 0 <= z1 <= z2 /\ z2 <= INT_MAX
      /\ main_basic true (F64.of_Z 2) = Done (BasicConverted (F64.of_Z 2) (basic_miles2km z1))
      /\ main_basic true (F64.div (F64.of_Z 5) (F64.of_Z 2))
         = Done (BasicConverted (F64.div (F64.of_Z 5) (F64.of_Z 2)) (basic_miles2km z2))
      /\ F32.leb (basic_miles2km z1) (basic_miles2km z2) = true)
  /\ main_basic true (F64.of_Z 3000000000) = Undefined CastOutOfRange.
Proof.
  split.
  - apply (main_basic_integer_part (F64.of_Z 2) (F64.div (F64.of_Z 5) (F64.of_Z 2)));
      vm_compute; reflexivity.
  - apply (main_basic_integer_part (F64.of_Z 2) (F64.of_Z 3000000000));
      vm_compute; reflexivity.
Defined.
